(** * motu-tools: the volume stepping and mute logic of [main.go]

    The program reads one numeric property of a MOTU interface over HTTP,
    computes the next value and writes it back.  Every number in it is a Go
    [float64]; it is modelled here by Rocq's primitive binary64 floats, whose
    operations are the IEEE 754 ones Go uses, so the constants and the
    arithmetic below are those of the source, bit for bit.  The functions of
    Go's [math] package that the program calls are modelled from their
    documentation; the numerical kernels of [math.Log10] and [math.Pow], which
    no specification pins down to the last bit, are parameters.  The HTTP
    client and the sound player act on an explicit world: the datastore of
    the interface, the faults the transport will show, and the log of the
    requests issued.

    The file has five parts: the program, from the stepping functions to
    the command line; the facts about binary64 and about the library that
    the proofs rest on; the claims about the program; further properties of
    the operations, of the stepping functions and of the command line; and
    the error of the round trip through decibels, with the rounding of
    binary64 that it rests on. *)

From Stdlib Require Import Reals Lra.
From Stdlib Require Import Floats FloatLemmas ZArith Lia Bool List.
From stdpp Require Import base strings gmap.

Local Open Scope float_scope.

(** ** Go's [math] package on binary64 *)

Module GoMath.

(** [math.IsNaN]: [f != f]. *)
Definition IsNaN (f : float) : bool := negb (f =? f).

(** [math.IsInf]: whether [f] is an infinity of the sign of [sign]
    (either infinity when [sign] is 0). *)
Definition IsInf (f : float) (sign : Z) : bool :=
  ((0 <=? sign)%Z && (f =? infinity)) || ((sign <=? 0)%Z && (f =? neg_infinity)).

(** [math.Signbit]: the sign bit of [x].  Rocq's floats have one NaN, whose
    sign bit is not observable; the program only asks for the sign of
    zeros. *)
Definition Signbit (x : float) : bool :=
  match Prim2SF x with
  | S754_zero s | S754_infinity s | S754_finite s _ _ => s
  | S754_nan => false
  end.

(** [math.Max], with its special cases in the order of the library. *)
Definition Max (x y : float) : float :=
  if IsInf x 1 || IsInf y 1 then infinity
  else if IsNaN x || IsNaN y then nan
  else if (x =? 0) && (x =? y) then (if Signbit x then y else x)
  else if y <? x then x
  else y.

(** [math.Min], likewise. *)
Definition Min (x y : float) : float :=
  if IsInf x (-1) || IsInf y (-1) then neg_infinity
  else if IsNaN x || IsNaN y then nan
  else if (x =? 0) && (x =? y) then (if Signbit x then x else y)
  else if x <? y then x
  else y.

(** [math.Ceil]: the least integer value greater than or equal to [x];
    [Ceil(+-0) = +-0], [Ceil(+-Inf) = +-Inf], [Ceil(NaN) = NaN].  A float whose
    exponent is not negative is an integer already; otherwise the integer
    is computed on the mantissa and normalised back, keeping the sign when
    it is zero (the ceiling of -0.5 is -0). *)
Definition SFceil (f : spec_float) : spec_float :=
  match f with
  | S754_finite s m e =>
      if (0 <=? e)%Z then f
      else
        let q := (Z.pos m / 2 ^ (- e))%Z in
        let r := (Z.pos m mod 2 ^ (- e))%Z in
        let n := if s then (- q)%Z else if (r =? 0)%Z then q else (q + 1)%Z in
        binary_normalize prec emax n 0 s
  | _ => f
  end.

Definition Ceil (x : float) : float := SF2Prim (SFceil (Prim2SF x)).

(** [math.Sqrt] is the correctly rounded IEEE square root. *)
Definition Sqrt (x : float) : float := PrimFloat.sqrt x.

(** [math.Abs]. *)
Definition Abs (x : float) : float := PrimFloat.abs x.

(** Whether a float is an odd integer ([isOddInt] of [math/pow.go]): a
    float of magnitude [2^53] or more is an even integer. *)
Definition isOddInt (x : float) : bool :=
  match Prim2SF x with
  | S754_finite _ m e =>
      if (0 <? e)%Z then false
      else ((Z.pos m mod 2 ^ (- e) =? 0)%Z && Z.odd (Z.pos m / 2 ^ (- e)))%bool
  | _ => false
  end.

(** Whether a finite float is an integer: the test [yf != 0] that
    [math.Pow] makes on the fractional part of [|y|]. *)
Definition isInt (x : float) : bool :=
  match Prim2SF x with
  | S754_finite _ m e =>
      if (0 <=? e)%Z then true else (Z.pos m mod 2 ^ (- e) =? 0)%Z
  | S754_zero _ => true
  | _ => false
  end.

Section Kernels.

(** The numerical kernels: [log10_core x] stands for what [math.Log10]
    computes on a finite [x > 0], and [pow_core x y] for what [math.Pow]
    computes once none of its special cases applies. *)
Variable log10_core : float -> float.
Variable pow_core : float -> float -> float.

(** [math.Log10]: the special cases are those of [math.Log]:
    [Log(+Inf) = +Inf], [Log(0) = -Inf], [Log(x < 0) = NaN],
    [Log(NaN) = NaN]. *)
Definition Log10 (x : float) : float :=
  if IsNaN x || IsInf x 1 then x
  else if x <? 0 then nan
  else if x =? 0 then neg_infinity
  else log10_core x.

(** [math.Pow], special cases in the order of [math/pow.go]:
    [Pow(x, +-0) = 1], [Pow(1, y) = 1], [Pow(x, 1) = x], NaN for a NaN
    argument, the powers of [+-0], the powers with an infinite exponent, the
    powers of [+-Inf], the square roots, and NaN for a negative base with an
    exponent that is not an integer. *)
Definition Pow (x y : float) : float :=
  if (y =? 0) || (x =? 1) then 1
  else if y =? 1 then x
  else if IsNaN x || IsNaN y then nan
  else if x =? 0 then
    (if y <? 0 then
       (if Signbit x && isOddInt y then (if Signbit x then neg_infinity else infinity)
        else infinity)
     else
       (if Signbit x && isOddInt y then x else 0))
  else if IsInf y 0 then
    (if x =? -1 then 1
     else if Bool.eqb (Abs x <? 1) (IsInf y 1) then 0
     else infinity)
  else if IsInf x 0 then
    (if IsInf x (-1) then
       (* Pow(1/x, -y), that is Pow(-0, -y) *)
       (if 0 <? y then
          (if isOddInt y then neg_infinity else infinity)
        else
          (if isOddInt y then -0 else 0))
     else if y <? 0 then 0
     else infinity)
  else if y =? 0.5 then Sqrt x
  else if y =? -0.5 then 1 / Sqrt x
  else if negb (isInt y) && (x <? 0) then nan
  else pow_core x y.

End Kernels.

End GoMath.

Import GoMath.

(** ** Go's [fmt] package: the verb [%f] on binary64

    [%f] writes a number with six digits after the decimal point: of the
    multiples of one millionth, the nearest to the number, and the even one
    when two are as near.  It writes a zero with its sign, and it writes NaN
    and the infinities by name. *)

Module GoFmt.

(** The multiple of one millionth that [%f] writes for [m * 2^e], as a count
    of millionths. *)
Definition millionths (m : positive) (e : Z) : Z :=
  if (0 <=? e)%Z then (Z.pos m * 2 ^ e * 1000000)%Z
  else
    let n := (Z.pos m * 1000000)%Z in
    let d := (2 ^ (- e))%Z in
    let q := (n / d)%Z in
    match (2 * (n mod d) ?= d)%Z with
    | Lt => q
    | Eq => if Z.even q then q else (q + 1)%Z
    | Gt => (q + 1)%Z
    end.

(** The number that the text [fmt.Sprintf("%f", value)] denotes, as the
    float64 nearest to it: what a reader of the text gets. *)
Definition Sprintf_f (value : float) : float :=
  match Prim2SF value with
  | S754_finite s m e =>
      match millionths m e with
      | Zpos k =>
          SF2Prim (SFdiv prec emax (S754_finite s k 0) (S754_finite false 1000000 0))
      | _ => SF2Prim (S754_zero s)
      end
  | _ => value
  end.

End GoFmt.

Arguments GoFmt.Sprintf_f : simpl never.

(** ** The program *)

(** Constants of [main.go]. *)
Definition volumeDenominations : float := 16.
Definition scaleLinear : string := "linear".
Definition scaleLog : string := "log".

(** [type Device struct]. *)
Record Device := {
  Property : string;      (* the property that controls the gain *)
  MuteProperty : string;  (* the property that controls whether the device is muted *)
  Scale : string;         (* type of scale (linear or logarithmic) *)
  Max : float;            (* allowed range; in dB when the scale is log *)
  Min : float;
  ZeroVolume : float      (* written once Min is reached; an amplitude ratio if log *)
}.

Definition main_device : Device := {|
  Property := "datastore/ext/obank/1/ch/0/stereoTrim";
  MuteProperty := "datastore/mix/main/0/matrix/mute";
  Scale := scaleLinear;
  Max := 0;
  Min := -50;
  ZeroVolume := -127
|}.

Definition computer_device : Device := {|
  Property := "datastore/mix/chan/10/matrix/fader";
  MuteProperty := "datastore/mix/chan/10/matrix/mute";
  Scale := scaleLog;
  Max := 0;
  Min := -64;
  ZeroVolume := 0
|}.

(** [var devices = map[string]*Device{...}]. *)
Definition devices : gmap string Device :=
  {[ "main"%string := main_device; "computer"%string := computer_device ]}.

(** *** Errors, panics and the outside world *)

(** Go [error] values: one raised by a library ([net/http], [io],
    [encoding/json], [os/exec]), one built by [fmt.Errorf] around a number
    ([%f]), one built by [fmt.Errorf] around another error ([%w]). *)
Inductive error : Type :=
| Underlying (origin : string)
| Valued (msg : string) (v : float)
| Wrap (msg : string) (cause : error).

(** How a call ends: with a value, with a returned [error], or in a
    [panic], which unwinds the whole program. *)
Inductive result (A : Type) : Type :=
| Ok (a : A)
| Err (e : error)
| Panic (msg : string).
Arguments Ok {A} a.
Arguments Err {A} e.
Arguments Panic {A} msg.

(** What the client and the sound player do to the world, in order.  A
    PATCH carries the number that is in its body. *)
Inductive event : Type :=
| GET (property : string)
| PATCH (property : string) (value : float)
| AFPLAY.

(** Where a GET can fail inside [get]. *)
Inductive get_stage : Type := AtRequest | AtBody | AtDecode.

(** The world one invocation runs in: the datastore of the interface, the
    faults the transport and the sound player will show, and the requests
    issued so far.  A property the datastore does not hold answers with a
    body that does not decode.  The interface keeps the number that the body
    of a PATCH carries, and answers it to a later GET.  A body that names
    NaN or an infinity is not JSON, and what the interface makes of it is
    not the program's to say: the model lets it keep the value named. *)
Record World := {
  datastore : gmap string float;
  get_fault : option get_stage;
  patch_fault : bool;
  afplay_fault : bool;
  log : list event
}.

Definition emit (ev : event) (w : World) : World :=
  {| datastore := datastore w; get_fault := get_fault w;
     patch_fault := patch_fault w; afplay_fault := afplay_fault w;
     log := log w ++ [ev] |}.

Definition store (property : string) (value : float) (w : World) : World :=
  {| datastore := <[property := value]> (datastore w); get_fault := get_fault w;
     patch_fault := patch_fault w; afplay_fault := afplay_fault w;
     log := log w |}.

(** Computations that act on the world and may return an error or panic. *)
Definition M (A : Type) : Type := World -> result A * World.

Definition ret {A} (a : A) : M A := fun w => (Ok a, w).
Definition throw {A} (e : error) : M A := fun w => (Err e, w).
Definition panic {A} (msg : string) : M A := fun w => (Panic msg, w).

Definition bind {A B} (c : M A) (k : A -> M B) : M B :=
  fun w =>
    match c w with
    | (Ok a, w') => k a w'
    | (Err e, w') => (Err e, w')
    | (Panic msg, w') => (Panic msg, w')
    end.

(** [if err != nil { return fmt.Errorf("msg: %w", err) }]. *)
Definition wrapping {A} (msg : string) (c : M A) : M A :=
  fun w =>
    match c w with
    | (Err e, w') => (Err (Wrap msg e), w')
    | other => other
    end.

(** A function without effects that may panic, run inside [M]. *)
Definition lift {A} (r : result A) : M A := fun w => (r, w).

Declare Scope go_scope.
Delimit Scope go_scope with go.
Notation "x <- c ;; k" := (bind c (fun x => k))
  (at level 100, c at next level, right associativity) : go_scope.
Local Open Scope go_scope.

(** [func (m *MotuClient) get(property string) (float64, error)]. *)
Definition get (property : string) : M float :=
  fun w =>
    let w := emit (GET property) w in
    match get_fault w with
    | Some AtRequest => (Err (Wrap "failed to get property value" (Underlying "net/http")), w)
    | Some AtBody => (Err (Wrap "failed to read body" (Underlying "io")), w)
    | Some AtDecode => (Err (Wrap "failed to unmarshal response" (Underlying "encoding/json")), w)
    | None =>
        match datastore w !! property with
        | Some value => (Ok value, w)
        | None => (Err (Wrap "failed to unmarshal response" (Underlying "encoding/json")), w)
        end
    end.

(** [func (m *MotuClient) patch(property string, value float64) error].
    The body is the value written by [%f].  [http.NewRequest] is given a
    valid method and an address that [JoinPath] has built, so that the only
    error is that of the transport. *)
Definition patch (property : string) (value : float) : M unit :=
  fun w =>
    let form := GoFmt.Sprintf_f value in
    let w := emit (PATCH property form) w in
    if patch_fault w
    then (Err (Wrap "failed to make request" (Underlying "net/http")), w)
    else (Ok tt, store property form w).

(** [func playSound() error]. *)
Definition playSound : M unit :=
  fun w =>
    let w := emit AFPLAY w in
    if afplay_fault w
    then (Err (Wrap "failed to run afplay" (Underlying "os/exec")), w)
    else (Ok tt, w).

(** *** Mute *)

(** [func (m *MotuClient) Mute(d *Device) error]. *)
Definition Mute (d : Device) : M unit :=
  current <- wrapping "failed to get current value" (get (MuteProperty d)) ;;
  let newValue : float := 0 in
  newValue <-
    (if current =? 0 then ret 1
     else if current =? 1 then ret newValue (* Ok *)
     else throw (Valued "unexpected current mute value" current)) ;;
  wrapping "failed to update property" (patch (MuteProperty d) newValue).

(** *** Volume stepping *)

(** [func (m *MotuClient) newVolumeLinear(d *Device, current float64, inc bool) float64]. *)
Definition newVolumeLinear (d : Device) (current : float) (inc : bool) : float :=
  let delta := (Max d - Min d) / volumeDenominations in
  let newVolume := if inc then Ceil current + delta else Ceil current - delta in
  (* Go straight to mute once we reach min volume *)
  if negb inc && (newVolume <=? Min d) then ZeroVolume d
  else
    (* Keep the volume within the bounds *)
    GoMath.Min (GoMath.Max newVolume (Min d)) (Max d).

Section Stepping.

Variable log10_core : float -> float.
Variable pow_core : float -> float -> float.

Local Abbreviation Log10 := (GoMath.Log10 log10_core).
Local Abbreviation Pow := (GoMath.Pow pow_core).

(** [func (m *MotuClient) newVolumeLog(d *Device, current float64, inc bool) float64]. *)
Definition newVolumeLog (d : Device) (current : float) (inc : bool) : result float :=
  (* Convert the amplitude ratio value to a decibel value *)
  let currentDB := 10 * Log10 (Pow current 2) in
  let delta := (Max d - Min d) / volumeDenominations in
  let newDB := if inc then Ceil currentDB + delta else Ceil currentDB - delta in
  (* Go straight to mute once we reach min volume *)
  if negb inc && (newDB <=? Min d) then
    if negb (ZeroVolume d =? 0) then Panic "logarithmic zero volume should be zero"
    else Ok (ZeroVolume d)
  else
    (* Keep the volume within the bounds *)
    let newDB := GoMath.Min (GoMath.Max newDB (Min d)) (Max d) in
    (* Convert back to amplitude ratio and bound to [0, 1] *)
    let newAmpRatio := Sqrt (Pow 10 (newDB / 10)) in
    Ok (GoMath.Min (GoMath.Max newAmpRatio 0) 1).

(** The decibel value [newVolumeLog] computes for the current amplitude
    ratio, and the value it has stepped to before any clamping: the local
    variables [currentDB] and [newDB] of the function, named so that
    statements can speak of them. *)
Definition currentDB (current : float) : float := 10 * Log10 (Pow current 2).

Definition steppedDB (d : Device) (current : float) (inc : bool) : float :=
  let delta := (Max d - Min d) / volumeDenominations in
  if inc then Ceil (currentDB current) + delta else Ceil (currentDB current) - delta.

(** The amplitude ratio that [newVolumeLog] makes of a decibel value before
    the last clamp: the local variable [newAmpRatio] of the function. *)
Definition newAmpRatio (newDB : float) : float := Sqrt (Pow 10 (newDB / 10)).

(** [func (m *MotuClient) IncDec(d *Device, inc bool) error]. *)
Definition IncDec (d : Device) (inc : bool) : M unit :=
  current <- wrapping "failed to get current value" (get (Property d)) ;;
  newValue <-
    (if String.eqb (Scale d) scaleLinear then ret (newVolumeLinear d current inc)
     else if String.eqb (Scale d) scaleLog then lift (newVolumeLog d current inc)
     else panic "unknown scale") ;;
  _ <- wrapping "failed to update property" (patch (Property d) newValue) ;;
  _ <- wrapping "failed to play sound" playSound ;;
  ret tt.

End Stepping.

(** *** The command line *)

(** [type MotuClient struct]: the address of the interface.  Its HTTP client
    is the default one of [net/http], whose behaviour is that of the
    [World]. *)
Record MotuClient := { MOTUAddress : string }.

Definition motuAddress : string := "192.168.88.251".

(** What [main] prints before [os.Exit]: the five [fmt.Printf] of the
    function, with the value each one formats. *)
Inductive message : Type :=
| NotEnoughArguments
| FailedToCreateClient (e : error)
| UnknownDevice (name : string)
| UnrecognisedCommand (arg : string)
| Failed (e : error).

(** How the program ends: [main] returns, and the status is 0; it calls
    [os.Exit] after a message; or a panic unwinds it. *)
Inductive ending : Type :=
| Returns
| Exits (status : Z) (printed : message)
| Panics (msg : string).

Section CommandLine.

(** [url.Parse] of [net/url]: the parsed address, or an error. *)
Variable url_Parse : string -> option string.
Variable log10_core : float -> float.
Variable pow_core : float -> float -> float.

(** [func NewFromIPAddress(ip string)], which returns a client or an
    error. *)
Definition NewFromIPAddress (ip : string) : result MotuClient :=
  match url_Parse ("http://" ++ ip) with
  | None => Err (Wrap "failed to parse URL" (Underlying "net/url"))
  | Some addr => Ok {| MOTUAddress := addr |}
  end.

(** [if err != nil { fmt.Printf("Error: %v\n", err); os.Exit(1) }], at the
    end of [main], for the operation the command has chosen. *)
Definition finish (operation : M unit) : World -> ending * World :=
  fun w =>
    match operation w with
    | (Ok _, w') => (Returns, w')
    | (Err e, w') => (Exits 1 (Failed e), w')
    | (Panic msg, w') => (Panics msg, w')
    end.

(** [func main()], on the arguments [os.Args]: the name of the program,
    then the device, then the command. *)
Definition main (Args : list string) : World -> ending * World :=
  fun w =>
    if (length Args <? 3)%nat then (Exits 1 NotEnoughArguments, w)
    else
      match NewFromIPAddress motuAddress with
      | Err e => (Exits 1 (FailedToCreateClient e), w)
      | Panic msg => (Panics msg, w)
      | Ok m =>
          match devices !! nth 1 Args ""%string with
          | None => (Exits 1 (UnknownDevice (nth 1 Args ""%string)), w)
          | Some d =>
              let command := nth 2 Args ""%string in
              if String.eqb command "mute" then finish (Mute d) w
              else if String.eqb command "inc" || String.eqb command "increment"
              then finish (IncDec log10_core pow_core d true) w
              else if String.eqb command "dec" || String.eqb command "decrement"
              then finish (IncDec log10_core pow_core d false) w
              else (Exits 1 (UnrecognisedCommand (nth 1 Args ""%string)), w)
          end
      end.

End CommandLine.

(** ** Vocabulary of the statements *)

(** The GET of [property] succeeds in [w] and answers [value]. *)
Definition reads (w : World) (property : string) (value : float) : Prop :=
  get_fault w = None /\ datastore w !! property = Some value.

(** A world without faults in which nothing has been requested yet. *)
Definition quiet (ds : gmap string float) : World :=
  {| datastore := ds; get_fault := None; patch_fault := false;
     afplay_fault := false; log := [] |}.

(** Worlds with one fault each: the interface does not answer a GET, it
    does not answer a PATCH, the sound player does not run. *)
Definition unreachable (ds : gmap string float) : World :=
  {| datastore := ds; get_fault := Some AtRequest; patch_fault := false;
     afplay_fault := false; log := [] |}.



(** The value [IncDec] computes from the value it has read: the [switch] on
    the scale, with its [panic]. *)
Definition newValue (log10_core : float -> float) (pow_core : float -> float -> float)
    (d : Device) (current : float) (inc : bool) : result float :=
  if String.eqb (Scale d) scaleLinear then Ok (newVolumeLinear d current inc)
  else if String.eqb (Scale d) scaleLog then newVolumeLog log10_core pow_core d current inc
  else Panic "unknown scale".

(** The GET of [property] fails in [w]. *)
Definition unreadable (w : World) (property : string) : Prop :=
  forall value, ~ reads w property value.

(** A parser of addresses that accepts every string. *)
Definition any_url : string -> option string := Some.

(** The real number that a finite float is: its mantissa times a power of
    two, with its sign. *)
Definition pow2 (k : Z) : R := powerRZ 2 k.

Definition sign (s : bool) : R := if s then (-1)%R else 1%R.

Definition SF2R (f : spec_float) : R :=
  match f with
  | S754_finite s m e => (sign s * (IZR (Z.pos m) * pow2 e))%R
  | _ => 0%R
  end.

Definition to_R (x : float) : R := SF2R (Prim2SF x).

(** The function that [math.Log10] approximates. *)
Definition log10 (x : R) : R := (ln x / ln 10)%R.

(** The float [x] is finite and within the relative error [eps] of the real
    number [t]. *)
Definition accurate (eps : R) (x : float) (t : R) : Prop :=
  is_finite x = true /\ (Rabs (to_R x - t) <= eps * Rabs t)%R.

(** Constant kernels, the coarsest functions with the properties that the
    statements below assume of the kernels of the library: used where a
    statement is applied to a concrete input. *)
Definition unit_log10 : float -> float := fun _ => 0.
Definition unit_pow : float -> float -> float := fun _ _ => 1.

(** Descriptors that are not in the table: a logarithmic one whose
    [ZeroVolume] is 5, one whose scale is neither of the two, and a
    logarithmic one whose bounds are so far apart that their difference
    overflows. *)
Definition misconfigured_device : Device := {|
  Property := "datastore/mix/chan/10/matrix/fader";
  MuteProperty := "datastore/mix/chan/10/matrix/mute";
  Scale := scaleLog;
  Max := 0;
  Min := -64;
  ZeroVolume := 5
|}.

Definition exponential_device : Device := {|
  Property := "datastore/mix/chan/10/matrix/fader";
  MuteProperty := "datastore/mix/chan/10/matrix/mute";
  Scale := "exp";
  Max := 0;
  Min := -64;
  ZeroVolume := 0
|}.

Definition distant_device : Device := {|
  Property := "datastore/mix/chan/10/matrix/fader";
  MuteProperty := "datastore/mix/chan/10/matrix/mute";
  Scale := scaleLog;
  Max := 0x1p1023;
  Min := -0x1p1023;
  ZeroVolume := 0
|}.

(** ** Vocabulary of the proofs *)

(** Whether a specification-level float is NaN, and whether it is a number
    that is not an infinity. *)
Definition SFnan (f : spec_float) : bool :=
  match f with S754_nan => true | _ => false end.

Definition SFfin (f : spec_float) : bool :=
  match f with S754_zero _ | S754_finite _ _ _ => true | _ => false end.

(** The position of a float on the integer line: the finite float of
    mantissa [m] and exponent [e] stands at [m * 2^(e+1074)] or at its
    opposite, an integer since the least exponent of binary64 is [-1074];
    the infinities stand beyond every finite float.  Comparing two floats
    that are not NaN is comparing their positions. *)
Definition ord_inf : Z := 2 ^ 2200.

Definition ord (f : spec_float) : Z :=
  match f with
  | S754_zero _ => 0
  | S754_infinity s => if s then - ord_inf else ord_inf
  | S754_nan => 0
  | S754_finite s m e =>
      if s then - (Z.pos m * 2 ^ (e + 1074)) else Z.pos m * 2 ^ (e + 1074)
  end.

Definition Ford (x : float) : Z := ord (Prim2SF x).

(** The position of the integer [n]. *)
Definition ord_int (n : Z) : Z := n * 2 ^ 1074.

(** Two finite numbers differ by at most [step].  The position of a finite
    float is its value times [2^1074], so differences of positions are
    differences of values. *)
Definition within (step x y : float) : Prop :=
  is_finite x = true /\ is_finite y = true /\
  (Z.abs (Ford x - Ford y) <= Ford step)%Z.

(** The integer [n] as a float, with the sign [s] when it is zero: what
    [Ceil] returns on a float that is not an integer already. *)
Definition float_of_int (s : bool) (n : Z) : float :=
  SF2Prim (binary_normalize prec emax n 0 s).

(** The integers [a, a+1, ..., a+len-1]. *)
Definition Zrange (a : Z) (len : nat) : list Z :=
  map (fun i => (a + Z.of_nat i)%Z) (seq 0 len).

(** A property of floats checked on every integer of a range, with either
    sign of zero. *)
Definition on_ints (P : float -> bool) (a : Z) (len : nat) : bool :=
  forallb (fun n => P (float_of_int true n) && P (float_of_int false n)) (Zrange a len).

(** The same for a property of an integer and of the float that it is. *)
Definition on_positions (P : Z -> float -> bool) (a : Z) (len : nat) : bool :=
  forallb (fun n => P n (float_of_int true n) && P n (float_of_int false n)) (Zrange a len).

(** * Facts about binary64 *)

(** ** Rounding never makes a NaN *)

Lemma shr_1_nonneg mrs : (0 <= shr_m mrs)%Z -> (0 <= shr_m (shr_1 mrs))%Z.
Proof.
  destruct mrs as [m r s]; simpl.
  destruct m as [|[p|p|]|[p|p|]]; simpl; lia.
Qed.

Lemma iter_shr_1_nonneg p : forall mrs,
  (0 <= shr_m mrs)%Z -> (0 <= shr_m (SpecFloat.iter_pos shr_1 p mrs))%Z.
Proof.
  induction p as [p IH|p IH|]; intros mrs H; simpl.
  - apply IH, IH, shr_1_nonneg, H.
  - apply IH, IH, H.
  - apply shr_1_nonneg, H.
Qed.

Lemma shr_nonneg mrs e n : (0 <= shr_m mrs)%Z -> (0 <= shr_m (fst (shr mrs e n)))%Z.
Proof.
  intros H. destruct n; simpl; trivial. now apply iter_shr_1_nonneg.
Qed.

Lemma shr_record_of_loc_m m l : shr_m (shr_record_of_loc m l) = m.
Proof. destruct l as [|[| |]]; reflexivity. Qed.

Lemma shr_fexp_nonneg m e l :
  (0 <= m)%Z -> (0 <= shr_m (fst (shr_fexp prec emax m e l)))%Z.
Proof.
  intros H. unfold shr_fexp. apply shr_nonneg. now rewrite shr_record_of_loc_m.
Qed.

Lemma round_nearest_even_nonneg m l : (0 <= m)%Z -> (0 <= round_nearest_even m l)%Z.
Proof.
  intros H. unfold round_nearest_even.
  destruct l as [|[| |]]; try destruct (Z.even m); lia.
Qed.

Lemma binary_round_aux_not_nan s m e l :
  (0 <= m)%Z -> SFnan (binary_round_aux prec emax s m e l) = false.
Proof.
  intros H. unfold binary_round_aux.
  pose proof (shr_fexp_nonneg m e l H) as H1.
  destruct (shr_fexp prec emax m e l) as [mrs' e']. simpl in H1.
  pose proof (shr_fexp_nonneg _ e' loc_Exact
                (round_nearest_even_nonneg _ (loc_of_shr_record mrs') H1)) as H2.
  destruct (shr_fexp prec emax _ e' loc_Exact) as [mrs'' e'']. simpl in H2.
  destruct (shr_m mrs''); try lia; trivial.
  now destruct (_ <=? _)%Z.
Qed.

Lemma binary_round_not_nan s m e : SFnan (binary_round prec emax s m e) = false.
Proof.
  unfold binary_round. destruct (shl_align _ _ _) as [mz ez].
  now apply binary_round_aux_not_nan.
Qed.

Lemma binary_normalize_not_nan m e s : SFnan (binary_normalize prec emax m e s) = false.
Proof. destruct m; simpl; trivial; apply binary_round_not_nan. Qed.

(** ** The order of binary64 as an order of integers *)

Lemma digits2_pos_bounds (m : positive) :
  (2 ^ (Z.pos (digits2_pos m) - 1) <= Z.pos m < 2 ^ Z.pos (digits2_pos m))%Z.
Proof.
  induction m as [m IH|m IH|]; simpl digits2_pos.
  - rewrite Pos2Z.inj_succ.
    replace (Z.succ (Z.pos (digits2_pos m)) - 1)%Z with (Z.succ (Z.pos (digits2_pos m) - 1))%Z by lia.
    rewrite !Z.pow_succ_r by lia. lia.
  - rewrite Pos2Z.inj_succ.
    replace (Z.succ (Z.pos (digits2_pos m)) - 1)%Z with (Z.succ (Z.pos (digits2_pos m) - 1))%Z by lia.
    rewrite !Z.pow_succ_r by lia. lia.
  - simpl. lia.
Qed.

Lemma bounded_inv m e :
  bounded prec emax m e = true ->
  (-1074 <= e <= 971)%Z /\ (Z.pos m < 2 ^ 53)%Z /\ (e = -1074 \/ 2 ^ 52 <= Z.pos m)%Z.
Proof.
  unfold bounded, canonical_mantissa, fexp, SpecFloat.emin, prec, emax.
  rewrite andb_true_iff, Z.eqb_eq, Z.leb_le. intros [Hc He].
  pose proof (digits2_pos_bounds m) as [Hlo Hhi].
  set (d := Z.pos (digits2_pos m)) in *.
  assert (Hd : (d <= 53)%Z) by lia.
  assert (Hm : (Z.pos m < 2 ^ 53)%Z).
  { eapply Z.lt_le_trans; [exact Hhi|]. apply Z.pow_le_mono_r; lia. }
  repeat split; try lia.
  destruct (Z.eq_dec e (-1074)%Z) as [->|Hne]; [now left|right].
  replace d with 53%Z in Hlo by lia. exact Hlo.
Qed.

Lemma finite_ord_bounds m e :
  bounded prec emax m e = true ->
  (0 < Z.pos m * 2 ^ (e + 1074) < ord_inf)%Z.
Proof.
  intros H. apply bounded_inv in H. destruct H as (He & Hm & _).
  assert (Hp : (0 < 2 ^ (e + 1074))%Z) by (apply Z.pow_pos_nonneg; lia).
  assert (Hq : (2 ^ (e + 1074) <= 2 ^ 2045)%Z) by (apply Z.pow_le_mono_r; lia).
  split; [lia|].
  unfold ord_inf. replace 2200%Z with (53 + 2147)%Z by lia.
  rewrite (Z.pow_add_r 2 53 2147) by lia.
  assert (2 ^ 2045 < 2 ^ 2147)%Z by (apply Z.pow_lt_mono_r; lia).
  nia.
Qed.

Lemma finite_ord_lt m1 e1 m2 e2 :
  bounded prec emax m1 e1 = true -> bounded prec emax m2 e2 = true ->
  (e1 < e2)%Z ->
  (Z.pos m1 * 2 ^ (e1 + 1074) < Z.pos m2 * 2 ^ (e2 + 1074))%Z.
Proof.
  intros H1 H2 Hlt.
  apply bounded_inv in H1. destruct H1 as (He1 & Hm1 & _).
  apply bounded_inv in H2. destruct H2 as (He2 & _ & [->|Hm2]); [lia|].
  replace (e2 + 1074)%Z with ((e2 - e1 - 1) + 1 + (e1 + 1074))%Z by lia.
  rewrite (Z.pow_add_r 2 (e2 - e1 - 1 + 1) (e1 + 1074)) by lia.
  rewrite (Z.pow_add_r 2 (e2 - e1 - 1) 1) by lia.
  assert (Hp : (0 < 2 ^ (e1 + 1074))%Z) by (apply Z.pow_pos_nonneg; lia).
  assert (Hq : (0 < 2 ^ (e2 - e1 - 1))%Z) by (apply Z.pow_pos_nonneg; lia).
  change (2 ^ 1)%Z with 2%Z.
  set (P := (2 ^ (e1 + 1074))%Z) in *. set (Q := (2 ^ (e2 - e1 - 1))%Z) in *.
  set (B := (2 ^ 52)%Z) in *. change (2 ^ 53)%Z with (B * 2)%Z in Hm1.
  assert (HB : (0 < B)%Z) by (now vm_compute).
  apply Z.lt_le_trans with (B * 2 * P)%Z.
  - apply Z.mul_lt_mono_pos_r; lia.
  - assert (H1 : (B * 2 <= Z.pos m2 * (Q * 2))%Z) by nia.
    replace (Z.pos m2 * (Q * 2 * P))%Z with (Z.pos m2 * (Q * 2) * P)%Z by ring.
    apply Z.mul_le_mono_nonneg_r; lia.
Qed.

Lemma finite_ord_compare m1 e1 m2 e2 :
  bounded prec emax m1 e1 = true -> bounded prec emax m2 e2 = true ->
  match (e1 ?= e2)%Z with
  | Eq => Pos.compare_cont Eq m1 m2
  | Lt => Lt
  | Gt => Gt
  end = (Z.pos m1 * 2 ^ (e1 + 1074) ?= Z.pos m2 * 2 ^ (e2 + 1074))%Z.
Proof.
  intros H1 H2. destruct (Z.compare_spec e1 e2) as [->|Hlt|Hgt].
  - rewrite <- Zmult_compare_compat_r; [reflexivity|].
    apply bounded_inv in H2. apply Z.lt_gt, Z.pow_pos_nonneg; lia.
  - symmetry. apply Z.compare_lt_iff. now apply finite_ord_lt.
  - symmetry. apply Z.compare_gt_iff. now apply finite_ord_lt.
Qed.

Lemma SFcompare_ord f1 f2 :
  valid_binary f1 = true -> valid_binary f2 = true ->
  SFnan f1 = false -> SFnan f2 = false ->
  SFcompare f1 f2 = Some (ord f1 ?= ord f2)%Z.
Proof.
  intros V1 V2 N1 N2.
  assert (Hinf : (0 < ord_inf)%Z) by (apply Z.pow_pos_nonneg; lia).
  destruct f1 as [s1|s1| |s1 m1 e1], f2 as [s2|s2| |s2 m2 e2];
    try discriminate; simpl in V1, V2; simpl SFcompare; unfold ord; f_equal;
    try (pose proof (finite_ord_bounds _ _ V1));
    try (pose proof (finite_ord_bounds _ _ V2));
    repeat match goal with s : bool |- _ => destruct s end;
    try reflexivity;
    try (symmetry; first [apply Z.compare_lt_iff | apply Z.compare_gt_iff | apply Z.compare_eq_iff]; lia).
  - rewrite Z.compare_opp. rewrite <- (finite_ord_compare _ _ _ _ V2 V1).
    rewrite (Z.compare_antisym e2 e1).
    destruct (e2 ?= e1)%Z; simpl; trivial.
    now rewrite Pos.compare_cont_antisym.
  - now apply finite_ord_compare.
Qed.

Lemma is_nan_spec x : is_nan x = SFnan (Prim2SF x).
Proof.
  unfold is_nan. rewrite FloatAxioms.eqb_spec. unfold SFeqb.
  destruct (SFnan (Prim2SF x)) eqn:N.
  - destruct (Prim2SF x); try discriminate. reflexivity.
  - rewrite SFcompare_ord by (trivial; apply Prim2SF_valid).
    now rewrite Z.compare_refl.
Qed.

Lemma SFcompare_nan_l f1 f2 : SFnan f1 = true -> SFcompare f1 f2 = None.
Proof. destruct f1; try discriminate. reflexivity. Qed.

Lemma SFcompare_nan_r f1 f2 : SFnan f2 = true -> SFcompare f1 f2 = None.
Proof. destruct f2; try discriminate. now destruct f1. Qed.

Lemma compare_cases x y :
  (is_nan x = false /\ is_nan y = false /\
   SFcompare (Prim2SF x) (Prim2SF y) = Some (Ford x ?= Ford y)%Z) \/
  ((is_nan x = true \/ is_nan y = true) /\
   SFcompare (Prim2SF x) (Prim2SF y) = None).
Proof.
  rewrite !is_nan_spec.
  destruct (SFnan (Prim2SF x)) eqn:Nx; [right; split; [now left|now apply SFcompare_nan_l]|].
  destruct (SFnan (Prim2SF y)) eqn:Ny; [right; split; [now right|now apply SFcompare_nan_r]|].
  left. repeat split. apply SFcompare_ord; trivial; apply Prim2SF_valid.
Qed.

Lemma leb_iff x y :
  (x <=? y) = true <-> is_nan x = false /\ is_nan y = false /\ (Ford x <= Ford y)%Z.
Proof.
  rewrite FloatAxioms.leb_spec. unfold SFleb.
  destruct (compare_cases x y) as [(Nx & Ny & ->)|([Nx|Ny] & ->)];
    [|split; [discriminate|intros (? & ? & _); congruence]..].
  destruct (Z.compare_spec (Ford x) (Ford y)); split; intros H0;
    try discriminate; repeat split; trivial; try lia;
    destruct H0 as (_ & _ & H0); lia.
Qed.

Lemma ltb_iff x y :
  (x <? y) = true <-> is_nan x = false /\ is_nan y = false /\ (Ford x < Ford y)%Z.
Proof.
  rewrite FloatAxioms.ltb_spec. unfold SFltb.
  destruct (compare_cases x y) as [(Nx & Ny & ->)|([Nx|Ny] & ->)];
    [|split; [discriminate|intros (? & ? & _); congruence]..].
  destruct (Z.compare_spec (Ford x) (Ford y)); split; intros H0;
    try discriminate; repeat split; trivial; try lia;
    destruct H0 as (_ & _ & H0); lia.
Qed.

Lemma eqb_iff x y :
  (x =? y) = true <-> is_nan x = false /\ is_nan y = false /\ Ford x = Ford y.
Proof.
  rewrite FloatAxioms.eqb_spec. unfold SFeqb.
  destruct (compare_cases x y) as [(Nx & Ny & ->)|([Nx|Ny] & ->)];
    [|split; [discriminate|intros (? & ? & _); congruence]..].
  destruct (Z.compare_spec (Ford x) (Ford y)); split; intros H0;
    try discriminate; repeat split; trivial; try lia;
    destruct H0 as (_ & _ & H0); lia.
Qed.

Lemma leb_false_iff x y :
  is_nan x = false -> is_nan y = false ->
  ((x <=? y) = false <-> (Ford y < Ford x)%Z).
Proof.
  intros Nx Ny. destruct (x <=? y) eqn:E.
  - apply leb_iff in E. split; [discriminate|lia].
  - split; trivial. intros _.
    destruct (Z.lt_ge_cases (Ford y) (Ford x)); trivial.
    assert ((x <=? y) = true) by (apply leb_iff; repeat split; trivial; lia). congruence.
Qed.

Lemma ltb_false_iff x y :
  is_nan x = false -> is_nan y = false ->
  ((x <? y) = false <-> (Ford y <= Ford x)%Z).
Proof.
  intros Nx Ny. destruct (x <? y) eqn:E.
  - apply ltb_iff in E. split; [discriminate|lia].
  - split; trivial. intros _.
    destruct (Z.le_gt_cases (Ford y) (Ford x)); trivial.
    assert ((x <? y) = true) by (apply ltb_iff; repeat split; trivial; lia). congruence.
Qed.

Lemma eqb_false_iff x y :
  is_nan x = false -> is_nan y = false ->
  ((x =? y) = false <-> Ford x <> Ford y).
Proof.
  intros Nx Ny. destruct (x =? y) eqn:E.
  - apply eqb_iff in E. split; [discriminate|]. intros H. now destruct H.
  - split; trivial. intros _ H.
    assert ((x =? y) = true) by (apply eqb_iff; repeat split; trivial). congruence.
Qed.

(** ** Positions of the constants, and of the infinities *)

Lemma ord_inf_pos : (0 < ord_inf)%Z.
Proof. apply Z.pow_pos_nonneg; lia. Qed.

Lemma Ford_infinity : Ford infinity = ord_inf.
Proof. reflexivity. Qed.

Lemma Ford_neg_infinity : Ford neg_infinity = (- ord_inf)%Z.
Proof. reflexivity. Qed.

Lemma Ford_zero : Ford 0 = 0%Z.
Proof. reflexivity. Qed.

Lemma Ford_bounds x : (- ord_inf <= Ford x <= ord_inf)%Z.
Proof.
  pose proof ord_inf_pos. unfold Ford.
  pose proof (Prim2SF_valid x) as V.
  destruct (Prim2SF x) as [s|s| |s m e]; simpl in *; try destruct s; try lia;
    pose proof (finite_ord_bounds _ _ V); lia.
Qed.

Lemma Ford_infinity_inv x : is_nan x = false -> Ford x = ord_inf -> x = infinity.
Proof.
  rewrite is_nan_spec. unfold Ford. intros N H.
  pose proof ord_inf_pos. pose proof (Prim2SF_valid x) as V.
  apply Prim2SF_inj. change (Prim2SF infinity) with (S754_infinity false).
  destruct (Prim2SF x) as [s|s| |s m e]; simpl in *; try discriminate;
    try destruct s; try lia; trivial;
    pose proof (finite_ord_bounds _ _ V); lia.
Qed.

Lemma Ford_neg_infinity_inv x :
  is_nan x = false -> Ford x = (- ord_inf)%Z -> x = neg_infinity.
Proof.
  rewrite is_nan_spec. unfold Ford. intros N H.
  pose proof ord_inf_pos. pose proof (Prim2SF_valid x) as V.
  apply Prim2SF_inj. change (Prim2SF neg_infinity) with (S754_infinity true).
  destruct (Prim2SF x) as [s|s| |s m e]; simpl in *; try discriminate;
    try destruct s; try lia; trivial;
    pose proof (finite_ord_bounds _ _ V); lia.
Qed.

Lemma eqb_infinity x : (x =? infinity) = true -> x = infinity.
Proof.
  intros H. apply eqb_iff in H. destruct H as (N & _ & H).
  now apply Ford_infinity_inv.
Qed.

Lemma eqb_neg_infinity x : (x =? neg_infinity) = true -> x = neg_infinity.
Proof.
  intros H. apply eqb_iff in H. destruct H as (N & _ & H).
  now apply Ford_neg_infinity_inv.
Qed.

(** Two numbers at the same position are the same float, unless the
    position is that of the two zeros. *)
Lemma ord_inj f g :
  valid_binary f = true -> valid_binary g = true ->
  SFnan f = false -> SFnan g = false ->
  ord f = ord g -> ord f <> 0%Z -> f = g.
Proof.
  intros Vf Vg Nf Ng H H0. pose proof ord_inf_pos.
  destruct f as [s|s| |s m e], g as [s'|s'| |s' m' e']; try discriminate;
    simpl in Vf, Vg, H, H0; try lia;
    try (pose proof (finite_ord_bounds _ _ Vf));
    try (pose proof (finite_ord_bounds _ _ Vg)).
  - destruct s, s'; trivial; lia.
  - destruct s, s'; lia.
  - destruct s, s'; lia.
  - assert (Hs : s = s') by (destruct s, s'; trivial; lia). subst s'.
    assert (Hv : (Z.pos m * 2 ^ (e + 1074) = Z.pos m' * 2 ^ (e' + 1074))%Z)
      by (destruct s; lia).
    destruct (Z.lt_total e e') as [Hlt|[->|Hlt]].
    + pose proof (finite_ord_lt _ _ _ _ Vf Vg Hlt). lia.
    + apply Z.mul_cancel_r in Hv; [now inversion Hv|].
      apply bounded_inv in Vg. apply Z.neq_sym, Z.lt_neq, Z.pow_pos_nonneg; lia.
    + pose proof (finite_ord_lt _ _ _ _ Vg Vf Hlt). lia.
Qed.

Lemma Ford_inj x y :
  is_nan x = false -> is_nan y = false ->
  Ford x = Ford y -> Ford x <> 0%Z -> x = y.
Proof.
  rewrite !is_nan_spec. intros Nx Ny H H0.
  apply Prim2SF_inj. apply ord_inj; trivial; apply Prim2SF_valid.
Qed.

(** ** [math.Max] and [math.Min] on numbers *)

Lemma Max_cases x y :
  is_nan x = false -> is_nan y = false ->
  (GoMath.Max x y = x /\ (Ford y <= Ford x)%Z) \/
  (GoMath.Max x y = y /\ (Ford x <= Ford y)%Z).
Proof.
  intros Nx Ny. unfold GoMath.Max, IsInf, IsNaN. fold (is_nan x) (is_nan y).
  rewrite Nx, Ny. simpl.
  pose proof (Ford_bounds x). pose proof (Ford_bounds y).
  destruct (x =? infinity) eqn:E1.
  { apply eqb_infinity in E1. subst x. left. split; trivial.
    rewrite Ford_infinity. lia. }
  destruct (y =? infinity) eqn:E2.
  { apply eqb_infinity in E2. subst y. right. split; trivial.
    rewrite Ford_infinity. lia. }
  simpl.
  destruct ((x =? 0) && (x =? y)) eqn:E3.
  { apply andb_true_iff in E3. destruct E3 as [_ E3]. apply eqb_iff in E3.
    destruct (Signbit x); [right|left]; split; trivial; lia. }
  destruct (y <? x) eqn:E4.
  - apply ltb_iff in E4. left. split; trivial. lia.
  - apply ltb_false_iff in E4; trivial. right. split; trivial.
Qed.

Lemma Min_cases x y :
  is_nan x = false -> is_nan y = false ->
  (GoMath.Min x y = x /\ (Ford x <= Ford y)%Z) \/
  (GoMath.Min x y = y /\ (Ford y <= Ford x)%Z).
Proof.
  intros Nx Ny. unfold GoMath.Min, IsInf, IsNaN. fold (is_nan x) (is_nan y).
  rewrite Nx, Ny. simpl.
  pose proof (Ford_bounds x). pose proof (Ford_bounds y).
  destruct (x =? neg_infinity) eqn:E1.
  { apply eqb_neg_infinity in E1. subst x. left. split; trivial.
    rewrite Ford_neg_infinity. lia. }
  destruct (y =? neg_infinity) eqn:E2.
  { apply eqb_neg_infinity in E2. subst y. right. split; trivial.
    rewrite Ford_neg_infinity. lia. }
  simpl.
  destruct ((x =? 0) && (x =? y)) eqn:E3.
  { apply andb_true_iff in E3. destruct E3 as [_ E3]. apply eqb_iff in E3.
    destruct (Signbit x); [left|right]; split; trivial; lia. }
  destruct (x <? y) eqn:E4.
  - apply ltb_iff in E4. left. split; trivial. lia.
  - apply ltb_false_iff in E4; trivial. right. split; trivial.
Qed.

(** ** [math.Ceil] between two integers *)

(** Closed facts about constants are settled by evaluation. *)
Ltac computed := now vm_compute.

Lemma Zrange_In a len n :
  (a <= n < a + Z.of_nat len)%Z -> In n (Zrange a len).
Proof.
  intros H. unfold Zrange. apply in_map_iff.
  exists (Z.to_nat (n - a)). split; [lia|]. apply in_seq. lia.
Qed.

Lemma on_ints_spec P a len :
  on_ints P a len = true ->
  forall s n, (a <= n < a + Z.of_nat len)%Z -> P (float_of_int s n) = true.
Proof.
  unfold on_ints. rewrite forallb_forall. intros H s n Hn.
  specialize (H n (Zrange_In _ _ _ Hn)). apply andb_true_iff in H.
  destruct s; tauto.
Qed.

(** The ceiling of [m / K] or of its opposite, as [SFceil] computes it. *)
Lemma ceil_quotient_bounds (a b m K : Z) (s : bool) :
  (0 < K)%Z -> (0 < m)%Z ->
  (a * K < (if s then - m else m) <= b * K)%Z ->
  (a < (if s then - (m / K) else if (m mod K =? 0)%Z then m / K else m / K + 1) <= b)%Z.
Proof.
  intros HK Hm H.
  pose proof (Z.div_mod m K ltac:(lia)) as Hdm.
  pose proof (Z.mod_pos_bound m K HK) as Hr.
  set (q := (m / K)%Z) in *. set (r := (m mod K)%Z) in *.
  destruct s.
  - split; nia.
  - destruct (Z.eqb_spec r 0); split; nia.
Qed.

(** A number that stands above the integer [a] and at or below the integer
    [b] has its ceiling among the integers of [(a, b]]. *)
Lemma Ceil_between (a b : Z) (x : float) :
  (- 2 ^ 52 <= a)%Z -> (b < 2 ^ 52)%Z ->
  is_nan x = false ->
  (ord_int a < Ford x <= ord_int b)%Z ->
  exists s n, (a < n <= b)%Z /\ Ceil x = float_of_int s n.
Proof.
  intros Ha Hb Nx [H1 H2]. unfold ord_int in *.
  rewrite is_nan_spec in Nx. unfold Ford in *. unfold Ceil, float_of_int.
  pose proof (Prim2SF_valid x) as V.
  assert (Hbig : (2 ^ 52 * 2 ^ 1074 < ord_inf)%Z).
  { unfold ord_inf. rewrite <- Z.pow_add_r by lia. apply Z.pow_lt_mono_r; lia. }
  assert (H1074 : (0 < 2 ^ 1074)%Z) by (apply Z.pow_pos_nonneg; lia).
  destruct (Prim2SF x) as [s|s| |s m e]; try discriminate; simpl in H1, H2, V.
  - exists s, 0%Z. split; [nia|reflexivity].
  - exfalso. destruct s; nia.
  - apply bounded_inv in V. destruct V as (He & Hm & Hn).
    unfold SFceil. destruct (Z.leb_spec 0 e) as [He0|He0].
    + exfalso. destruct Hn as [->|Hn]; [lia|].
      assert (2 ^ 1074 <= 2 ^ (e + 1074))%Z by (apply Z.pow_le_mono_r; lia).
      assert (2 ^ 52 * 2 ^ 1074 <= Z.pos m * 2 ^ (e + 1074))%Z by nia.
      destruct s; nia.
    + eexists s, _. split; [|reflexivity].
      assert (HP : (0 < 2 ^ (e + 1074))%Z) by (apply Z.pow_pos_nonneg; lia).
      assert (HK : (0 < 2 ^ (- e))%Z) by (apply Z.pow_pos_nonneg; lia).
      assert (HPK : (2 ^ 1074 = 2 ^ (- e) * 2 ^ (e + 1074))%Z).
      { rewrite <- Z.pow_add_r by lia. f_equal. lia. }
      rewrite HPK in H1, H2.
      apply ceil_quotient_bounds; [lia|lia|].
      destruct s; split; nia.
Qed.

(** The same, from comparisons of floats: [x] in [[A, B]] with [A] at or
    above the integer [a] and [B] at or below the integer [b]. *)
Lemma Ceil_in_range (a b : Z) (A B x : float) :
  (- 2 ^ 52 < a)%Z -> (b < 2 ^ 52)%Z ->
  (ord_int a <= Ford A)%Z -> (Ford B <= ord_int b)%Z ->
  (A <=? x) = true -> (x <=? B) = true ->
  exists s n, (a <= n <= b)%Z /\ Ceil x = float_of_int s n.
Proof.
  intros Ha Hb HA HB H1 H2.
  apply leb_iff in H1. destruct H1 as (_ & Nx & H1).
  apply leb_iff in H2. destruct H2 as (_ & _ & H2).
  assert (H1074 : (0 < 2 ^ 1074)%Z) by (apply Z.pow_pos_nonneg; lia).
  destruct (Ceil_between (a - 1) b x) as (s & n & Hn & Hc); trivial; try lia.
  - unfold ord_int in *. split; [|lia]. nia.
  - exists s, n. split; [lia|exact Hc].
Qed.

(** And for [x] in [(A, B]]. *)
Lemma Ceil_in_left_open_range (a b : Z) (A B x : float) :
  (- 2 ^ 52 <= a)%Z -> (b < 2 ^ 52)%Z ->
  (ord_int a <= Ford A)%Z -> (Ford B <= ord_int b)%Z ->
  (A <? x) = true -> (x <=? B) = true ->
  exists s n, (a < n <= b)%Z /\ Ceil x = float_of_int s n.
Proof.
  intros Ha Hb HA HB H1 H2.
  apply ltb_iff in H1. destruct H1 as (_ & Nx & H1).
  apply leb_iff in H2. destruct H2 as (_ & _ & H2).
  apply Ceil_between; trivial. lia.
Qed.

(** ** The integers as floats *)

Lemma iter_xO_value p k : Z.pos (Pos.iter xO p k) = (Z.pos p * 2 ^ Z.pos k)%Z.
Proof.
  induction k as [|k IH] using Pos.peano_ind.
  - simpl. lia.
  - rewrite Pos.iter_succ, Pos2Z.inj_xO, IH, Pos2Z.inj_succ, Z.pow_succ_r by lia. ring.
Qed.

Lemma iter_xO_digits p k :
  digits2_pos (Pos.iter xO p k) = (digits2_pos p + k)%positive.
Proof.
  induction k as [|k IH] using Pos.peano_ind.
  - simpl. lia.
  - rewrite Pos.iter_succ. simpl digits2_pos. rewrite IH. lia.
Qed.

Lemma binary_round_aux_canonical s m e :
  digits2_pos m = 53%positive -> (-1074 <= e <= 971)%Z ->
  binary_round_aux prec emax s (Z.pos m) e loc_Exact = S754_finite s m e.
Proof.
  intros Hd He. unfold binary_round_aux.
  assert (Hs : shr_fexp prec emax (Z.pos m) e loc_Exact
               = ({| shr_m := Z.pos m; shr_r := false; shr_s := false |}, e)).
  { unfold shr_fexp, fexp, SpecFloat.emin, prec, emax. cbn [Zdigits2]. rewrite Hd.
    replace (Z.max (53 + e - 53) (3 - 1024 - 53) - e)%Z with 0%Z by lia.
    reflexivity. }
  rewrite Hs. cbn [shr_m loc_of_shr_record round_nearest_even]. rewrite Hs.
  cbn [shr_m]. unfold prec, emax.
  destruct (Z.leb_spec e (1024 - 53)); [reflexivity|lia].
Qed.

Lemma binary_round_int s p :
  (Z.pos p < 2 ^ 53)%Z ->
  exists m e, binary_round prec emax s p 0 = S754_finite s m e /\
              bounded prec emax m e = true /\
              (Z.pos m * 2 ^ (e + 1074) = Z.pos p * 2 ^ 1074)%Z.
Proof.
  intros Hp. pose proof (digits2_pos_bounds p) as [Hlo Hhi].
  set (d := digits2_pos p) in *.
  assert (Hd : (Z.pos d <= 53)%Z).
  { destruct (Z.le_gt_cases (Z.pos d) 53) as [H|H]; trivial.
    assert (2 ^ 53 <= 2 ^ (Z.pos d - 1))%Z by (apply Z.pow_le_mono_r; lia). lia. }
  unfold binary_round, shl_align, fexp, SpecFloat.emin, prec, emax.
  fold d. replace (Z.max (Z.pos d + 0 - 53) (3 - 1024 - 53) - 0)%Z with (Z.pos d - 53)%Z by lia.
  replace (Z.max (Z.pos d + 0 - 53) (3 - 1024 - 53))%Z with (Z.pos d - 53)%Z by lia.
  destruct (Z.pos d - 53)%Z as [|k|k] eqn:Ek; try lia.
  - exists p, 0%Z. split; [|split].
    + apply binary_round_aux_canonical; [|lia]. fold d. lia.
    + unfold bounded, canonical_mantissa, fexp, SpecFloat.emin, prec, emax. fold d.
      apply andb_true_iff. split; [apply Z.eqb_eq|apply Z.leb_le]; lia.
    + reflexivity.
  - exists (Pos.iter xO p k), (Z.neg k). split; [|split].
    + apply binary_round_aux_canonical; [|lia]. rewrite iter_xO_digits. fold d. lia.
    + unfold bounded, canonical_mantissa, fexp, SpecFloat.emin, prec, emax.
      rewrite iter_xO_digits. fold d.
      apply andb_true_iff. split; [apply Z.eqb_eq|apply Z.leb_le]; lia.
    + rewrite iter_xO_value.
      replace 1074%Z with (Z.pos k + (Z.neg k + 1074))%Z at 2 by lia.
      rewrite (Z.pow_add_r 2 (Z.pos k)) by lia. ring.
Qed.

(** The float of an integer below [2^53] in magnitude is a number, and it
    stands where the integer stands. *)
Lemma float_of_int_position s n :
  (- 2 ^ 53 < n < 2 ^ 53)%Z ->
  is_nan (float_of_int s n) = false /\ Ford (float_of_int s n) = ord_int n.
Proof.
  intros Hn. unfold float_of_int, Ford, ord_int. rewrite is_nan_spec.
  destruct n as [|p|p]; cbn [binary_normalize].
  - rewrite Prim2SF_SF2Prim by reflexivity. now split.
  - destruct (binary_round_int false p) as (m & e & -> & V & H); [lia|].
    rewrite Prim2SF_SF2Prim by exact V. split; [reflexivity|exact H].
  - destruct (binary_round_int true p) as (m & e & -> & V & H); [lia|].
    rewrite Prim2SF_SF2Prim by exact V. split; [reflexivity|].
    cbn [ord]. rewrite H. lia.
Qed.

(** [Ceil] is the ceiling: between [-2^52] and [2^52], [Ceil x] is the least
    integer at or above [x]. *)
Lemma Ceil_least_integer (x : float) :
  is_nan x = false ->
  (ord_int (- 2 ^ 52) < Ford x <= ord_int (2 ^ 52 - 1))%Z ->
  exists n, Ford (Ceil x) = ord_int n /\ is_nan (Ceil x) = false /\
            (ord_int (n - 1) < Ford x <= ord_int n)%Z.
Proof.
  intros Nx Hx.
  assert (H1074 : (0 < 2 ^ 1074)%Z) by (apply Z.pow_pos_nonneg; lia).
  assert (Hn : exists n, (- 2 ^ 52 < n <= 2 ^ 52 - 1)%Z /\
                         (ord_int (n - 1) < Ford x <= ord_int n)%Z).
  { exists ((Ford x + 2 ^ 1074 - 1) / 2 ^ 1074)%Z.
    pose proof (Z.div_mod (Ford x + 2 ^ 1074 - 1) (2 ^ 1074) ltac:(lia)) as Hdm.
    pose proof (Z.mod_pos_bound (Ford x + 2 ^ 1074 - 1) (2 ^ 1074) H1074) as Hr.
    unfold ord_int in *.
    set (K := (2 ^ 1074)%Z) in *. set (q := ((Ford x + K - 1) / K)%Z) in *.
    set (r := ((Ford x + K - 1) mod K)%Z) in *.
    assert (H52 : (0 < 2 ^ 52)%Z) by (apply Z.pow_pos_nonneg; lia).
    set (B := (2 ^ 52)%Z) in *.
    repeat split; nia. }
  destruct Hn as (n & Hn & Hpos).
  destruct (Ceil_between (n - 1) n x) as (s & n' & Hn' & Hc); trivial; try lia.
  assert (n' = n) by lia. subst n'.
  destruct (float_of_int_position s n) as [Nc Hf].
  { assert (2 ^ 52 < 2 ^ 53)%Z by (apply Z.pow_lt_mono_r; lia). lia. }
  exists n. rewrite Hc. auto.
Qed.

(** ** Operations on numbers that return numbers *)

Lemma is_finite_spec x : is_finite x = SFfin (Prim2SF x).
Proof.
  unfold is_finite, is_infinity. rewrite is_nan_spec, FloatAxioms.eqb_spec, abs_spec.
  change (Prim2SF infinity) with (S754_infinity false).
  destruct (Prim2SF x) as [s|s| |s m e]; try reflexivity; now destruct s.
Qed.

Lemma is_finite_not_nan x : is_finite x = true -> is_nan x = false.
Proof.
  rewrite is_finite_spec, is_nan_spec. now destruct (Prim2SF x).
Qed.

Lemma SFadd_not_nan f g :
  SFnan f = false -> SFfin g = true -> SFnan (SF64add f g) = false.
Proof.
  destruct f as [s|s| |s m e], g as [s'|s'| |s' m' e']; try discriminate; intros _ _;
    cbn; try reflexivity; try (now destruct s, s').
  apply binary_normalize_not_nan.
Qed.

Lemma SFsub_not_nan f g :
  SFnan f = false -> SFfin g = true -> SFnan (SF64sub f g) = false.
Proof.
  destruct f as [s|s| |s m e], g as [s'|s'| |s' m' e']; try discriminate; intros _ _;
    cbn; try reflexivity; try (now destruct s, s').
  apply binary_normalize_not_nan.
Qed.

Lemma SFmul_not_nan s m e g :
  SFnan g = false -> SFnan (SF64mul (S754_finite s m e) g) = false.
Proof.
  destruct g as [s'|s'| |s' m' e']; try discriminate; intros _; cbn; try reflexivity.
  now apply binary_round_aux_not_nan.
Qed.

Lemma SFdiv_not_nan f s m e :
  SFnan f = false -> SFnan (SF64div f (S754_finite s m e)) = false.
Proof.
  destruct f as [s'|s'| |s' m' e']; try discriminate; intros _; cbn; try reflexivity.
  unfold SFdiv_core_binary.
  set (m0 := match _ with Z0 => _ | Z.pos _ => _ | Z.neg _ => _ end).
  assert (H0 : (0 <= m0)%Z).
  { unfold m0. destruct (_ - _ - _)%Z; try lia. apply Z.shiftl_nonneg. lia. }
  pose proof (Z.div_pos m0 (Z.pos m) H0 ltac:(lia)) as Hq.
  unfold Z.div in Hq. destruct (Z.div_eucl m0 (Z.pos m)) as [q r]. cbn in Hq.
  now apply binary_round_aux_not_nan.
Qed.

Lemma SFsqrt_not_nan f :
  SFnan f = false -> SFltb f (S754_zero false) = false -> SFnan (SF64sqrt f) = false.
Proof.
  destruct f as [s|s| |s m e]; try discriminate; intros _ H; cbn;
    try reflexivity; try (now destruct s).
  destruct s; [discriminate H|].
  unfold SFsqrt_core_binary.
  set (m0 := match _ with Z0 => _ | Z.pos _ => _ | Z.neg _ => _ end).
  pose proof (Z.sqrtrem_spec m0) as Hq.
  assert (H0 : (0 <= m0)%Z).
  { unfold m0. destruct (_ - _)%Z; try lia. apply Z.shiftl_nonneg. lia. }
  specialize (Hq H0). destruct (Z.sqrtrem m0) as [q r]. destruct Hq as [_ Hq].
  apply binary_round_aux_not_nan.
  destruct (Z.le_gt_cases 0 q); [trivial|]. nia.
Qed.

Lemma SFldexp_not_nan f e : SFnan f = false -> SFnan (SFldexp prec emax f e) = false.
Proof.
  destruct f; try discriminate; intros _; cbn; try reflexivity.
  apply binary_round_not_nan.
Qed.

Lemma SF2Prim_not_nan g : SFnan g = false -> is_nan (SF2Prim g) = false.
Proof.
  destruct g as [s|s| |s m e]; try discriminate; intros _;
    try (destruct s; reflexivity).
  unfold SF2Prim.
  assert (H : is_nan (Z.ldexp (of_uint63 (Uint63.of_Z (Z.pos m))) e) = false).
  { rewrite is_nan_spec, Z_ldexp_spec. apply SFldexp_not_nan.
    rewrite of_uint63_spec. apply binary_normalize_not_nan. }
  destruct s; trivial.
  rewrite is_nan_spec, opp_spec. rewrite is_nan_spec in H.
  now destruct (Prim2SF _).
Qed.

Lemma Ceil_not_nan x : is_nan x = false -> is_nan (Ceil x) = false.
Proof.
  rewrite is_nan_spec. intros N. unfold Ceil. apply SF2Prim_not_nan.
  destruct (Prim2SF x) as [s|s| |s m e]; try discriminate; try reflexivity.
  unfold SFceil. destruct (0 <=? e)%Z; [reflexivity|].
  apply binary_normalize_not_nan.
Qed.

Lemma add_not_nan x y :
  is_nan x = false -> is_finite y = true -> is_nan (x + y) = false.
Proof.
  rewrite !is_nan_spec, is_finite_spec, add_spec. apply SFadd_not_nan.
Qed.

Lemma sub_not_nan x y :
  is_nan x = false -> is_finite y = true -> is_nan (x - y) = false.
Proof.
  rewrite !is_nan_spec, is_finite_spec, sub_spec. apply SFsub_not_nan.
Qed.

Lemma ten_times_not_nan x : is_nan x = false -> is_nan (10 * x) = false.
Proof.
  rewrite !is_nan_spec, mul_spec. apply SFmul_not_nan.
Qed.

Lemma tenth_not_nan x : is_nan x = false -> is_nan (x / 10) = false.
Proof.
  rewrite !is_nan_spec, div_spec. apply SFdiv_not_nan.
Qed.

Lemma Sqrt_not_nan x :
  is_nan x = false -> (x <? 0) = false -> is_nan (Sqrt x) = false.
Proof.
  unfold Sqrt. rewrite !is_nan_spec, FloatAxioms.ltb_spec, sqrt_spec.
  apply SFsqrt_not_nan.
Qed.

Lemma Max_not_nan x y :
  is_nan x = false -> is_nan y = false -> is_nan (GoMath.Max x y) = false.
Proof.
  intros Nx Ny. destruct (Max_cases x y Nx Ny) as [[-> _]|[-> _]]; trivial.
Qed.

Lemma Min_not_nan x y :
  is_nan x = false -> is_nan y = false -> is_nan (GoMath.Min x y) = false.
Proof.
  intros Nx Ny. destruct (Min_cases x y Nx Ny) as [[-> _]|[-> _]]; trivial.
Qed.

(** The last clamp of [newVolumeLog]. *)
Lemma clamp_unit x :
  is_nan x = false ->
  (0 <=? GoMath.Min (GoMath.Max x 0) 1) = true /\
  (GoMath.Min (GoMath.Max x 0) 1 <=? 1) = true.
Proof.
  intros Nx.
  assert (N0 : is_nan 0 = false) by reflexivity.
  assert (N1 : is_nan 1 = false) by reflexivity.
  assert (H01 : (Ford 0 <= Ford 1)%Z) by (now vm_compute).
  pose proof (Max_not_nan x 0 Nx N0) as Nm.
  assert (Hm : (Ford 0 <= Ford (GoMath.Max x 0))%Z).
  { destruct (Max_cases x 0 Nx N0) as [[-> H]|[-> H]]; lia. }
  destruct (Min_cases (GoMath.Max x 0) 1 Nm N1) as [[-> H]|[-> H]];
    split; apply leb_iff; repeat split; trivial; lia.
Qed.

(** A finite step comes from bounds that are numbers. *)
Lemma finite_step_bounds (hi lo : float) :
  is_finite ((hi - lo) / volumeDenominations) = true ->
  is_nan hi = false /\ is_nan lo = false.
Proof.
  rewrite is_finite_spec, !is_nan_spec, div_spec, sub_spec.
  destruct (Prim2SF hi) as [s|s| |s m e], (Prim2SF lo) as [s'|s'| |s' m' e'];
    try (now split); intros H; cbn in H; try discriminate H;
    destruct s; try destruct s'; discriminate H.
Qed.

Lemma IsInf_either x : IsInf x 0 = is_infinity x.
Proof.
  unfold IsInf, is_infinity. cbn [Z.leb Z.compare andb].
  rewrite !FloatAxioms.eqb_spec, abs_spec.
  change (Prim2SF infinity) with (S754_infinity false).
  change (Prim2SF neg_infinity) with (S754_infinity true).
  destruct (Prim2SF x) as [s|s| |s m e]; try reflexivity; now destruct s.
Qed.

Lemma number_is_finite x : IsNaN x = false -> IsInf x 0 = false -> is_finite x = true.
Proof.
  unfold is_finite. rewrite IsInf_either. change (IsNaN x) with (is_nan x).
  now intros -> ->.
Qed.

(** ** The model of the library on examples *)

Example Ceil_examples :
  Ceil (-46.9375) = -46 /\ Ceil (-10) = -10 /\ Ceil 2.5 = 3 /\ Ceil (-0.5) = -0 /\
  Ceil 0x1p60 = 0x1p60 /\ Ceil neg_infinity = neg_infinity /\ is_nan (Ceil nan) = true.
Proof. repeat split; reflexivity. Qed.

Example Max_Min_examples :
  GoMath.Max 1 2 = 2 /\ GoMath.Min 1 2 = 1 /\
  GoMath.Max (-0) 0 = 0 /\ GoMath.Min 0 (-0) = -0 /\
  GoMath.Max neg_infinity 3 = 3 /\ GoMath.Min 3 infinity = 3 /\
  is_nan (GoMath.Max nan 1) = true /\ is_nan (GoMath.Min 1 nan) = true.
Proof. repeat split; reflexivity. Qed.

Example Pow_Log10_special_cases log10_core pow_core :
  GoMath.Pow pow_core 0 2 = 0 /\ GoMath.Pow pow_core infinity 2 = infinity /\
  GoMath.Pow pow_core neg_infinity 2 = infinity /\ GoMath.Pow pow_core 1 2 = 1 /\
  GoMath.Pow pow_core 10 0 = 1 /\ GoMath.Pow pow_core 10 neg_infinity = 0 /\
  GoMath.Pow pow_core 10 infinity = infinity /\
  GoMath.Log10 log10_core 0 = neg_infinity /\
  GoMath.Log10 log10_core infinity = infinity /\
  is_nan (GoMath.Log10 log10_core (-1)) = true.
Proof. repeat split; reflexivity. Qed.

(** * The claims *)

(** ** The table of devices *)

Lemma devices_inv name d :
  devices !! name = Some d ->
  (name = "main"%string /\ d = main_device) \/
  (name = "computer"%string /\ d = computer_device).
Proof.
  unfold devices. intros H.
  apply lookup_insert_Some in H. destruct H as [[<- <-]|[_ H]]; [now left|].
  apply lookup_singleton_Some in H. destruct H as [<- <-]. now right.
Qed.

(** ** The client *)

Lemma get_reads w property value :
  reads w property value ->
  get property w = (Ok value, emit (GET property) w).
Proof. intros [Hf Hv]. unfold get. cbn. now rewrite Hf, Hv. Qed.

(** A GET changes nothing but the log; it answers a value that the
    datastore holds, or an error. *)
Lemma get_leaves property w :
  datastore (snd (get property w)) = datastore w /\
  log (snd (get property w)) = log w ++ [GET property] /\
  ((exists value, get property w = (Ok value, emit (GET property) w)
                  /\ reads w property value) \/
   (exists e, get property w = (Err e, emit (GET property) w))).
Proof.
  unfold get, reads. cbn.
  destruct (get_fault w) as [[| |]|] eqn:Hf; cbn; try (repeat split; right; eauto; fail).
  destruct (datastore w !! property) as [value|] eqn:Hv; cbn;
    repeat split; [left|right]; eauto.
Qed.

(** The values that [Mute] writes go through [%f] unchanged. *)
Lemma Sprintf_f_bit : GoFmt.Sprintf_f 0 = 0 /\ GoFmt.Sprintf_f 1 = 1.
Proof. split; reflexivity. Qed.

Lemma patch_log property value w :
  log (snd (wrapping "failed to update property" (patch property value) w))
  = log w ++ [PATCH property (GoFmt.Sprintf_f value)].
Proof. unfold wrapping, patch. cbn. now destruct (patch_fault w). Qed.

Lemma patch_datastore property value w :
  patch_fault w = false ->
  wrapping "failed to update property" (patch property value) w
  = (Ok tt, store property (GoFmt.Sprintf_f value)
              (emit (PATCH property (GoFmt.Sprintf_f value)) w)).
Proof. intros H. unfold wrapping, patch. cbn. now rewrite H. Qed.

(** ** Mute *)

Lemma Mute_reads d w current :
  reads w (MuteProperty d) current ->
  Mute d w =
  (if current =? 0 then
     wrapping "failed to update property" (patch (MuteProperty d) 1)
   else if current =? 1 then
     wrapping "failed to update property" (patch (MuteProperty d) 0)
   else throw (Valued "unexpected current mute value" current))
    (emit (GET (MuteProperty d)) w).
Proof.
  intros H. unfold Mute, bind, wrapping at 1. rewrite (get_reads _ _ _ H).
  destruct (current =? 0); [reflexivity|]. destruct (current =? 1); reflexivity.
Qed.

(** C1, as the code has it.  When the mute property reads 0 the operation
    writes 1, and when it reads 1 the operation writes 0: it toggles.  The
    PATCH is issued in either case, and the datastore holds the new value
    when the transport lets it through. *)
Theorem Mute_toggles d w current :
  reads w (MuteProperty d) current ->
  ((current =? 0) = true ->
   log (snd (Mute d w)) = log w ++ [GET (MuteProperty d); PATCH (MuteProperty d) 1] /\
   (patch_fault w = false ->
    fst (Mute d w) = Ok tt /\
    datastore (snd (Mute d w)) = <[MuteProperty d := 1]> (datastore w))) /\
  ((current =? 1) = true ->
   log (snd (Mute d w)) = log w ++ [GET (MuteProperty d); PATCH (MuteProperty d) 0] /\
   (patch_fault w = false ->
    fst (Mute d w) = Ok tt /\
    datastore (snd (Mute d w)) = <[MuteProperty d := 0]> (datastore w))).
Proof.
  intros H. rewrite (Mute_reads _ _ _ H). split; intros E.
  - rewrite E. split.
    + rewrite patch_log. cbn. now rewrite <- app_assoc.
    + intros Hp. now rewrite patch_datastore.
  - assert (E0 : (current =? 0) = false).
    { apply eqb_iff in E. destruct E as (N & _ & E).
      apply eqb_false_iff; trivial. rewrite E. now vm_compute. }
    rewrite E0, E. split.
    + rewrite patch_log. cbn. now rewrite <- app_assoc.
    + intros Hp. now rewrite patch_datastore.
Qed.

Lemma Mute_toggles_witness :
  log (snd (Mute main_device (quiet {[ MuteProperty main_device := 1 ]})))
  = [GET (MuteProperty main_device); PATCH (MuteProperty main_device) 0].
Proof.
  apply (Mute_toggles main_device (quiet {[ MuteProperty main_device := 1 ]}) 1).
  - split; reflexivity.
  - reflexivity.
Defined.

(** C1, as the claim states it, fails: on a channel that is muted already
    (the property reads 1) the operation writes 0, and the channel is
    unmuted. *)
Lemma Mute_on_muted_channel_unmutes :
  fst (Mute main_device (quiet {[ MuteProperty main_device := 1 ]})) = Ok tt /\
  log (snd (Mute main_device (quiet {[ MuteProperty main_device := 1 ]})))
  = [GET "datastore/mix/main/0/matrix/mute"; PATCH "datastore/mix/main/0/matrix/mute" 0] /\
  datastore (snd (Mute main_device (quiet {[ MuteProperty main_device := 1 ]})))
    !! "datastore/mix/main/0/matrix/mute"%string = Some 0.
Proof. now vm_compute. Qed.

(** C6.  When the mute property reads a value that is neither 0 nor 1, the
    operation returns the unexpected-value error and issues no PATCH: the
    world it leaves is the one the GET left, with the datastore as it was. *)
Theorem Mute_unexpected_value d w current :
  reads w (MuteProperty d) current ->
  (current =? 0) = false -> (current =? 1) = false ->
  fst (Mute d w) = Err (Valued "unexpected current mute value" current) /\
  datastore (snd (Mute d w)) = datastore w /\
  log (snd (Mute d w)) = log w ++ [GET (MuteProperty d)].
Proof.
  intros H E0 E1. rewrite (Mute_reads _ _ _ H), E0, E1. now cbn.
Qed.

Lemma Mute_unexpected_value_witness :
  fst (Mute main_device (quiet {[ MuteProperty main_device := 0.5 ]}))
  = Err (Valued "unexpected current mute value" 0.5) /\
  datastore (snd (Mute main_device (quiet {[ MuteProperty main_device := 0.5 ]})))
  = {[ MuteProperty main_device := 0.5 ]} /\
  log (snd (Mute main_device (quiet {[ MuteProperty main_device := 0.5 ]})))
  = [GET (MuteProperty main_device)].
Proof.
  exact (Mute_unexpected_value main_device (quiet {[ MuteProperty main_device := 0.5 ]}) 0.5
           (conj eq_refl eq_refl) eq_refl eq_refl).
Defined.

(** ** Linear stepping *)

(** C4.  On a LINEAR device with [min = -50] and [max = 0], stepping up from
    -10 returns -6.875: the step is 3.125, the ceiling of -10 is -10, and
    -10 + 3.125 = -6.875 lies within the bounds. *)
Theorem newVolumeLinear_scenario d :
  Min d = -50 -> Max d = 0 ->
  (Max d - Min d) / volumeDenominations = 3.125 /\
  Ceil (-10) = -10 /\
  -10 + 3.125 = -6.875 /\
  (Min d <=? -6.875) = true /\ (-6.875 <=? Max d) = true /\
  newVolumeLinear d (-10) true = -6.875.
Proof.
  intros Hmin Hmax. unfold newVolumeLinear. rewrite Hmin, Hmax.
  repeat split; now vm_compute.
Qed.

Lemma newVolumeLinear_scenario_witness :
  newVolumeLinear main_device (-10) true = -6.875.
Proof.
  exact (proj2 (proj2 (proj2 (proj2 (proj2
           (newVolumeLinear_scenario main_device eq_refl eq_refl)))))).
Defined.

(** C5.  For every LINEAR device of the descriptor table and every raw value
    [v] with [min <= v <= max], the result of an increase is at least the
    ceiling of [v] and at most [max]. *)
Theorem newVolumeLinear_increase_bounds name d v :
  devices !! name = Some d -> Scale d = scaleLinear ->
  (Min d <=? v) = true -> (v <=? Max d) = true ->
  (Ceil v <=? newVolumeLinear d v true) = true /\
  (newVolumeLinear d v true <=? Max d) = true.
Proof.
  intros Hd Hs Hlo Hhi.
  apply devices_inv in Hd. destruct Hd as [[_ ->]|[_ ->]]; [|discriminate Hs].
  cbn [Min Max main_device] in Hlo, Hhi.
  destruct (Ceil_in_range (-50) 0 (-50) 0 v
              ltac:(computed) ltac:(computed) ltac:(computed) ltac:(computed)
              Hlo Hhi) as (s & n & Hn & Hc).
  unfold newVolumeLinear. rewrite Hc. cbn [negb andb Min Max main_device].
  apply andb_true_iff.
  apply (on_ints_spec
           (fun c => (c <=? GoMath.Min (GoMath.Max (c + (0 - -50) / volumeDenominations) (-50)) 0)
                     && (GoMath.Min (GoMath.Max (c + (0 - -50) / volumeDenominations) (-50)) 0 <=? 0))
           (-50) 51); [now vm_compute|lia].
Qed.

Lemma newVolumeLinear_increase_bounds_witness :
  (Ceil (-10) <=? newVolumeLinear main_device (-10) true) = true /\
  (newVolumeLinear main_device (-10) true <=? Max main_device) = true.
Proof.
  exact (newVolumeLinear_increase_bounds "main" main_device (-10)
           eq_refl eq_refl eq_refl eq_refl).
Defined.

(** C10.  On a descriptor with [min <= max], an increase from a current
    value whose ceiling plus one step is at or below [min] returns [min]:
    the snap to [ZeroVolume] is for decreases only, so one increase leaves
    the silent value for the bottom of the range.  The result equals [min] in
    the sense of Go's [==], and it is the very float [min] unless [min] is a
    zero, which may come back with the other sign. *)
Theorem newVolumeLinear_increase_from_below d current :
  (Min d <=? Max d) = true ->
  (Ceil current + (Max d - Min d) / volumeDenominations <=? Min d) = true ->
  (newVolumeLinear d current true =? Min d) = true /\
  ((Min d =? 0) = false -> newVolumeLinear d current true = Min d).
Proof.
  intros Hb Hs.
  assert (Heq : (newVolumeLinear d current true =? Min d) = true).
  { unfold newVolumeLinear. cbn [negb andb].
    set (nv := Ceil current + (Max d - Min d) / volumeDenominations) in *.
    apply leb_iff in Hb. destruct Hb as (Nmin & Nmax & Hb).
    apply leb_iff in Hs. destruct Hs as (Nnv & _ & Hs).
    destruct (Max_cases nv (Min d) Nnv Nmin) as [[-> H1]|[-> H1]].
    - destruct (Min_cases nv (Max d) Nnv Nmax) as [[-> H2]|[-> H2]];
        apply eqb_iff; repeat split; trivial; lia.
    - destruct (Min_cases (Min d) (Max d) Nmin Nmax) as [[-> H2]|[-> H2]];
        apply eqb_iff; repeat split; trivial; lia. }
  split; [exact Heq|]. intros Hz.
  apply eqb_iff in Heq. destruct Heq as (Nr & Nmin & Heq).
  apply Ford_inj; trivial.
  apply eqb_false_iff in Hz; trivial. rewrite Ford_zero in Hz. now rewrite Heq.
Qed.

Lemma newVolumeLinear_increase_from_below_witness :
  newVolumeLinear main_device (ZeroVolume main_device) true = -50.
Proof.
  exact (proj2 (newVolumeLinear_increase_from_below main_device (-127) eq_refl eq_refl)
           eq_refl).
Defined.

(** C2, as the claim states it, fails on the "main" device: -46.9375 lies
    within one step (3.125) above [min = -50], its ceiling is -46, and a
    decrease returns -46 - 3.125 = -49.125, which is not [ZeroVolume]. *)
Lemma decrease_within_one_step_keeps_volume :
  (Min main_device <=? -46.9375) = true /\
  (-46.9375 <=? Min main_device + (Max main_device - Min main_device) / volumeDenominations) = true /\
  newVolumeLinear main_device (-46.9375) false = -49.125 /\
  (-49.125 =? ZeroVolume main_device) = false.
Proof. repeat split; now vm_compute. Qed.

(** On "main" a decrease from a value of the range returns [ZeroVolume]
    when the value is at most -47, and only then. *)
Lemma main_decrease_snaps current :
  (-50 <=? current) = true -> (current <=? -47) = true ->
  newVolumeLinear main_device current false = ZeroVolume main_device.
Proof.
  intros Hlo Hhi.
  destruct (Ceil_in_range (-50) (-47) (-50) (-47) current
              ltac:(computed) ltac:(computed) ltac:(computed) ltac:(computed)
              Hlo Hhi) as (s & n & Hn & Hc).
  unfold newVolumeLinear. rewrite Hc. cbn [negb andb Min Max main_device].
  rewrite (on_ints_spec
             (fun c => c - (0 - -50) / volumeDenominations <=? -50)
             (-50) 4); [reflexivity|now vm_compute|lia].
Qed.

Lemma main_decrease_steps current :
  (-47 <? current) = true -> (current <=? 0) = true ->
  (newVolumeLinear main_device current false =? ZeroVolume main_device) = false.
Proof.
  intros Hlo Hhi.
  destruct (Ceil_in_left_open_range (-47) 0 (-47) 0 current
              ltac:(computed) ltac:(computed) ltac:(computed) ltac:(computed)
              Hlo Hhi) as (s & n & Hn & Hc).
  unfold newVolumeLinear. rewrite Hc. cbn [negb andb Min Max ZeroVolume main_device].
  apply negb_true_iff.
  apply (on_ints_spec
           (fun c => negb ((if c - (0 - -50) / volumeDenominations <=? -50 then -127
                            else GoMath.Min (GoMath.Max (c - (0 - -50) / volumeDenominations) (-50)) 0)
                           =? -127))
           (-46) 47); [now vm_compute|lia].
Qed.

(** ** The dispatch on the scale, and logarithmic stepping *)

Section SteppingFacts.

Variable log10_core : float -> float.
Variable pow_core : float -> float -> float.

Local Abbreviation Log10' := (GoMath.Log10 log10_core).
Local Abbreviation Pow' := (GoMath.Pow pow_core).
Local Abbreviation currentDB' := (currentDB log10_core pow_core).
Local Abbreviation steppedDB' := (steppedDB log10_core pow_core).
Local Abbreviation newVolumeLog' := (newVolumeLog log10_core pow_core).
Local Abbreviation IncDec' := (IncDec log10_core pow_core).

Lemma IncDec_reads d inc w current :
  reads w (Property d) current ->
  IncDec' d inc w =
  bind (if String.eqb (Scale d) scaleLinear then ret (newVolumeLinear d current inc)
        else if String.eqb (Scale d) scaleLog then lift (newVolumeLog' d current inc)
        else panic "unknown scale")
       (fun newValue =>
          bind (wrapping "failed to update property" (patch (Property d) newValue))
               (fun _ => bind (wrapping "failed to play sound" playSound)
                              (fun _ => ret tt)))
       (emit (GET (Property d)) w).
Proof.
  intros H. unfold IncDec. unfold bind at 1, wrapping at 1.
  now rewrite (get_reads _ _ _ H).
Qed.

(** C7.  When the scale of the descriptor is neither LINEAR nor LOGARITHMIC,
    the operation panics as soon as the current value has been read; it
    never returns normally, it issues no PATCH, and it leaves the datastore
    as it was. *)
Theorem IncDec_unknown_scale d inc w :
  Scale d <> scaleLinear -> Scale d <> scaleLog ->
  (forall current, reads w (Property d) current ->
     IncDec' d inc w = (Panic "unknown scale", emit (GET (Property d)) w)) /\
  fst (IncDec' d inc w) <> Ok tt /\
  datastore (snd (IncDec' d inc w)) = datastore w /\
  log (snd (IncDec' d inc w)) = log w ++ [GET (Property d)].
Proof.
  intros H1 H2.
  apply String.eqb_neq in H1. apply String.eqb_neq in H2.
  assert (Hread : forall current, reads w (Property d) current ->
            IncDec' d inc w = (Panic "unknown scale", emit (GET (Property d)) w)).
  { intros current H. rewrite (IncDec_reads _ _ _ _ H), H1, H2. reflexivity. }
  split; [exact Hread|].
  destruct (get_leaves (Property d) w) as (Hds & Hlog & [(value & Hg & Hr)|(e & Hg)]).
  - rewrite (Hread value Hr). cbn. repeat split; congruence.
  - unfold IncDec, bind, wrapping. rewrite Hg. cbn. repeat split; congruence.
Qed.

(** C3.  On a descriptor whose [ZeroVolume] is not 0, a decrease whose
    stepped decibel value is at or below [Min] panics; the operation that
    called it panics with it, before any PATCH. *)
Theorem newVolumeLog_zero_volume_panics d current :
  (ZeroVolume d =? 0) = false ->
  (steppedDB' d current false <=? Min d) = true ->
  newVolumeLog' d current false = Panic "logarithmic zero volume should be zero" /\
  (forall w, Scale d = scaleLog -> reads w (Property d) current ->
     IncDec' d false w
     = (Panic "logarithmic zero volume should be zero", emit (GET (Property d)) w)).
Proof.
  intros Hz Hs.
  assert (Hp : newVolumeLog' d current false
               = Panic "logarithmic zero volume should be zero").
  { unfold newVolumeLog. unfold steppedDB, currentDB in Hs. cbn [negb andb] in *.
    now rewrite Hs, Hz. }
  split; [exact Hp|].
  intros w Hscale Hr. rewrite (IncDec_reads _ _ _ _ Hr), Hscale, Hp. reflexivity.
Qed.

(** C2, as the code has it.  The current value is rounded up to a whole unit
    before the step is subtracted.  On "computer", whose step is 4 dB, a
    decrease returns [ZeroVolume] from every displayed value of
    [[min, min + step] = [-64, -60]]; on "main", whose step is 3.125, it
    returns [ZeroVolume] from every value of [[-50, -47]] and from no value of
    [(-47, 0]]. *)
Theorem decrease_from_first_step :
  (forall current,
     (-50 <=? current) = true -> (current <=? -47) = true ->
     newVolumeLinear main_device current false = ZeroVolume main_device) /\
  (forall current,
     (-47 <? current) = true -> (current <=? 0) = true ->
     (newVolumeLinear main_device current false =? ZeroVolume main_device) = false) /\
  (forall current,
     (-64 <=? currentDB' current) = true -> (currentDB' current <=? -60) = true ->
     newVolumeLog' computer_device current false = Ok (ZeroVolume computer_device)).
Proof.
  split; [exact main_decrease_snaps|]. split; [exact main_decrease_steps|].
  intros current Hlo Hhi.
  destruct (Ceil_in_range (-64) (-60) (-64) (-60) (currentDB' current)
              ltac:(computed) ltac:(computed) ltac:(computed) ltac:(computed)
              Hlo Hhi) as (s & n & Hn & Hc).
  unfold newVolumeLog. fold (currentDB' current).
  rewrite Hc. cbn [negb andb Min Max ZeroVolume computer_device].
  rewrite (on_ints_spec
             (fun c => c - (0 - -64) / volumeDenominations <=? -64)
             (-64) 5); [reflexivity|now vm_compute|lia].
Qed.

(** *** [math.Pow] and [math.Log10] at the arguments [newVolumeLog] gives them *)

Lemma Pow_two x :
  Pow' x 2 =
  if x =? 1 then 1
  else if IsNaN x then nan
  else if x =? 0 then 0
  else if IsInf x 0 then infinity
  else pow_core x 2.
Proof.
  unfold GoMath.Pow.
  change (2 =? 0) with false. change (2 =? 1) with false.
  change (IsNaN 2) with false. change (2 <? 0) with false.
  change (0 <? 2) with true. change (isOddInt 2) with false.
  change (IsInf 2 0) with false. change (2 =? 0.5) with false.
  change (2 =? -0.5) with false. change (isInt 2) with true.
  cbn [orb negb andb]. rewrite orb_false_r, andb_false_r.
  destruct (x =? 1); [reflexivity|]. destruct (IsNaN x); [reflexivity|].
  destruct (x =? 0); [reflexivity|].
  destruct (IsInf x 0); [|reflexivity]. now destruct (IsInf x (-1)).
Qed.

Lemma Pow_ten y :
  Pow' 10 y =
  if y =? 0 then 1
  else if y =? 1 then 10
  else if IsNaN y then nan
  else if IsInf y 0 then (if IsInf y 1 then infinity else 0)
  else if y =? 0.5 then Sqrt 10
  else if y =? -0.5 then 1 / Sqrt 10
  else pow_core 10 y.
Proof.
  unfold GoMath.Pow.
  change (10 =? 1) with false. change (IsNaN 10) with false.
  change (10 =? 0) with false. change (10 =? -1) with false.
  change (Abs 10 <? 1) with false. change (IsInf 10 0) with false.
  change (10 <? 0) with false.
  cbn [orb]. rewrite orb_false_r, andb_false_r.
  destruct (y =? 0); [reflexivity|]. destruct (y =? 1); [reflexivity|].
  destruct (IsNaN y); [reflexivity|].
  destruct (IsInf y 0); [now destruct (IsInf y 1)|reflexivity].
Qed.

(** What is assumed of the kernels: on a positive finite argument the
    kernel of [math.Log10] returns a number; on finite arguments, with a
    positive base or with the exponent 2, the kernel of [math.Pow] returns a
    number that is not negative. *)
Hypothesis log10_core_number :
  forall x, is_finite x = true -> (0 <? x) = true -> is_nan (log10_core x) = false.
Hypothesis pow_core_number :
  forall x y, is_finite x = true -> is_finite y = true ->
              (0 <? x) = true \/ y = 2 ->
              is_nan (pow_core x y) = false /\ (pow_core x y <? 0) = false.

Lemma Pow_two_number x :
  is_nan x = false -> is_nan (Pow' x 2) = false /\ (Pow' x 2 <? 0) = false.
Proof.
  intros Nx. rewrite Pow_two.
  assert (Nx' : IsNaN x = false) by exact Nx.
  destruct (x =? 1); [now vm_compute|]. rewrite Nx'.
  destruct (x =? 0); [now vm_compute|].
  destruct (IsInf x 0) eqn:Ei; [now vm_compute|].
  apply pow_core_number; [|reflexivity|now right].
  now apply number_is_finite.
Qed.

Lemma Pow_ten_number y :
  is_nan y = false -> is_nan (Pow' 10 y) = false /\ (Pow' 10 y <? 0) = false.
Proof.
  intros Ny. rewrite Pow_ten.
  destruct (y =? 0); [now vm_compute|]. destruct (y =? 1); [now vm_compute|].
  assert (Ny' : IsNaN y = false) by exact Ny.
  rewrite Ny'.
  destruct (IsInf y 0) eqn:Ei; [destruct (IsInf y 1); now vm_compute|].
  destruct (y =? 0.5); [now vm_compute|]. destruct (y =? -0.5); [now vm_compute|].
  apply pow_core_number; [reflexivity| |now left].
  now apply number_is_finite.
Qed.

Lemma Log10_number x :
  is_nan x = false -> (x <? 0) = false -> is_nan (Log10' x) = false.
Proof.
  intros Nx Hx. unfold GoMath.Log10.
  assert (Nx' : IsNaN x = false) by exact Nx.
  rewrite Nx', Hx. cbn [orb].
  destruct (IsInf x 1) eqn:E1; [trivial|].
  destruct (x =? 0) eqn:E0; [reflexivity|].
  assert (N0 : is_nan 0 = false) by reflexivity.
  apply ltb_false_iff in Hx; trivial. apply eqb_false_iff in E0; trivial.
  assert (Hpos : (0 <? x) = true) by (apply ltb_iff; repeat split; trivial; lia).
  apply log10_core_number; trivial.
  apply number_is_finite; trivial.
  unfold IsInf in *. cbn [Z.leb Z.compare andb orb] in *.
  rewrite orb_false_r in E1. rewrite E1. cbn [orb].
  destruct (x =? neg_infinity) eqn:E2; trivial.
  apply eqb_neg_infinity in E2. subst x. discriminate Hpos.
Qed.

(** The stepped decibel value is a number when the current value is one
    and the step is finite. *)
Lemma steppedDB_number d current inc :
  is_nan current = false ->
  is_finite ((Max d - Min d) / volumeDenominations) = true ->
  is_nan (steppedDB' d current inc) = false.
Proof.
  intros Nc Hd. unfold steppedDB, currentDB.
  destruct (Pow_two_number current Nc) as [Np Hp].
  pose proof (Ceil_not_nan _ (ten_times_not_nan _ (Log10_number _ Np Hp))) as Nceil.
  destruct inc; [now apply add_not_nan|now apply sub_not_nan].
Qed.

(** C9, as the code has it.  On a descriptor whose step is finite (its
    bounds are then numbers), and for a current value that is a number,
    inside [0, 1] or not, a result that [newVolumeLog] returns lies in
    [0, 1]. *)
Theorem newVolumeLog_in_unit_interval d current inc r :
  is_nan current = false ->
  is_finite ((Max d - Min d) / volumeDenominations) = true ->
  newVolumeLog' d current inc = Ok r ->
  (0 <=? r) = true /\ (r <=? 1) = true.
Proof.
  intros Nc Hd. destruct (finite_step_bounds _ _ Hd) as [Nmax Nmin].
  unfold newVolumeLog. fold (currentDB' current).
  change (if inc
          then Ceil (currentDB' current) + (Max d - Min d) / volumeDenominations
          else Ceil (currentDB' current) - (Max d - Min d) / volumeDenominations)
    with (steppedDB' d current inc).
  pose proof (steppedDB_number d current inc Nc Hd) as Ns.
  set (newDB := steppedDB' d current inc) in *.
  destruct (negb inc && (newDB <=? Min d)).
  - destruct (ZeroVolume d =? 0) eqn:Ez; cbn [negb]; [|discriminate].
    intros [= <-]. apply eqb_iff in Ez. destruct Ez as (Nz & _ & Ez).
    rewrite Ford_zero in Ez.
    split; apply leb_iff; repeat split; trivial; rewrite Ez; now vm_compute.
  - intros [= <-]. apply clamp_unit.
    pose proof (Min_not_nan _ _ (Max_not_nan _ _ Ns Nmin) Nmax) as Nclamp.
    destruct (Pow_ten_number _ (tenth_not_nan _ Nclamp)) as [Np Hp].
    now apply Sqrt_not_nan.
Qed.

End SteppingFacts.

Lemma IncDec_unknown_scale_witness :
  IncDec unit_log10 unit_pow exponential_device true
         (quiet {[ Property exponential_device := 0.5 ]})
  = (Panic "unknown scale",
     emit (GET (Property exponential_device)) (quiet {[ Property exponential_device := 0.5 ]})).
Proof.
  refine (proj1 (IncDec_unknown_scale unit_log10 unit_pow exponential_device true
                   (quiet {[ Property exponential_device := 0.5 ]}) _ _)
                0.5 (conj eq_refl eq_refl)); discriminate.
Defined.

Lemma newVolumeLog_zero_volume_panics_witness :
  newVolumeLog unit_log10 unit_pow misconfigured_device 0 false
  = Panic "logarithmic zero volume should be zero".
Proof.
  exact (proj1 (newVolumeLog_zero_volume_panics unit_log10 unit_pow misconfigured_device 0
                  eq_refl eq_refl)).
Defined.

(** The hypotheses of the third part hold at a concrete input, with
    stand-in kernels: when the kernel of [math.Log10] answers -6.25 the
    displayed value is -62.5 dB, within one step above -64; its ceiling is
    -62, and the decrease snaps to 0. *)
Example computer_decrease_snaps :
  currentDB (fun _ => -6.25) unit_pow 0.5 = -62.5 /\
  (-64 <=? -62.5) = true /\ (-62.5 <=? -60) = true /\
  newVolumeLog (fun _ => -6.25) unit_pow computer_device 0.5 false = Ok 0.
Proof. repeat split; reflexivity. Qed.

Lemma decrease_from_first_step_witness :
  newVolumeLinear main_device (-48) false = -127.
Proof.
  exact (proj1 (decrease_from_first_step unit_log10 unit_pow) (-48) eq_refl eq_refl).
Defined.

(** C9, as the claim states it, fails: the bounds of this descriptor are
    finite and ordered and its [ZeroVolume] is 0, but their difference
    overflows, the step is infinite, and an increase from silence (the
    decibel value of 0 is -Inf) computes -Inf + Inf: the result is NaN, which
    the last clamp lets through. *)
Lemma newVolumeLog_of_distant_bounds :
  is_finite (Min distant_device) = true /\
  is_finite (Max distant_device) = true /\
  (Min distant_device <? Max distant_device) = true /\
  (ZeroVolume distant_device =? 0) = true /\
  is_nan 0 = false /\
  steppedDB unit_log10 unit_pow distant_device 0 true = nan /\
  newVolumeLog unit_log10 unit_pow distant_device 0 true = Ok nan /\
  (0 <=? nan) = false.
Proof. repeat split; now vm_compute. Qed.

Lemma newVolumeLog_in_unit_interval_witness :
  (0 <=? 0) = true /\ (0 <=? 1) = true.
Proof.
  exact (newVolumeLog_in_unit_interval unit_log10 unit_pow
           (fun _ _ _ => eq_refl) (fun _ _ _ _ _ => conj eq_refl eq_refl)
           computer_device 0 false 0 eq_refl eq_refl eq_refl).
Defined.

(** * Further properties of the program *)

(** ** The operations, step by step *)

Lemma get_unreadable w property :
  unreadable w property ->
  exists e, get property w = (Err e, emit (GET property) w).
Proof.
  intros H. destruct (get_leaves property w) as (_ & _ & [(value & _ & Hr)|He]).
  - destruct (H value Hr).
  - exact He.
Qed.

Lemma reads_or_unreadable w property :
  (exists value, reads w property value) \/ unreadable w property.
Proof.
  unfold unreadable, reads.
  destruct (get_fault w) as [stage|].
  - right. intros value [H _]. discriminate.
  - destruct (datastore w !! property) as [value|].
    + left. now exists value.
    + right. intros value [_ H]. discriminate.
Qed.

Lemma Mute_unreadable d w :
  unreadable w (MuteProperty d) ->
  exists e, Mute d w
            = (Err (Wrap "failed to get current value" e), emit (GET (MuteProperty d)) w).
Proof.
  intros H. destruct (get_unreadable _ _ H) as (e & He).
  exists e. unfold Mute, bind, wrapping. now rewrite He.
Qed.

(** What [Mute] does once the mute property has been read. *)
Lemma Mute_run d w current :
  reads w (MuteProperty d) current ->
  Mute d w =
  let w1 := emit (GET (MuteProperty d)) w in
  let write v :=
    let w2 := emit (PATCH (MuteProperty d) v) w1 in
    if patch_fault w
    then (Err (Wrap "failed to update property"
                 (Wrap "failed to make request" (Underlying "net/http"))), w2)
    else (Ok tt, store (MuteProperty d) v w2) in
  if current =? 0 then write 1
  else if current =? 1 then write 0
  else (Err (Valued "unexpected current mute value" current), w1).
Proof.
  intros H. rewrite (Mute_reads _ _ _ H). cbn.
  destruct (current =? 0); [|destruct (current =? 1)];
    unfold wrapping, patch, throw; cbn; now destruct (patch_fault w).
Qed.

Section Operations.

Variable log10_core : float -> float.
Variable pow_core : float -> float -> float.

Local Abbreviation IncDec' := (IncDec log10_core pow_core).
Local Abbreviation newValue' := (newValue log10_core pow_core).
Local Abbreviation newVolumeLog' := (newVolumeLog log10_core pow_core).

Lemma IncDec_unreadable d inc w :
  unreadable w (Property d) ->
  exists e, IncDec' d inc w
            = (Err (Wrap "failed to get current value" e), emit (GET (Property d)) w).
Proof.
  intros H. destruct (get_unreadable _ _ H) as (e & He).
  exists e. unfold IncDec, bind, wrapping. now rewrite He.
Qed.

(** What [IncDec] does once the gain property has been read. *)
Lemma IncDec_run d inc w current :
  reads w (Property d) current ->
  IncDec' d inc w =
  let w1 := emit (GET (Property d)) w in
  match newValue' d current inc with
  | Ok v =>
      let w2 := emit (PATCH (Property d) (GoFmt.Sprintf_f v)) w1 in
      if patch_fault w
      then (Err (Wrap "failed to update property"
                   (Wrap "failed to make request" (Underlying "net/http"))), w2)
      else
        let w3 := emit AFPLAY (store (Property d) (GoFmt.Sprintf_f v) w2) in
        if afplay_fault w
        then (Err (Wrap "failed to play sound"
                     (Wrap "failed to run afplay" (Underlying "os/exec"))), w3)
        else (Ok tt, w3)
  | Err e => (Err e, w1)
  | Panic msg => (Panic msg, w1)
  end.
Proof.
  intros H. rewrite (IncDec_reads _ _ _ _ _ _ H). unfold newValue.
  assert (Hv : forall v,
    bind (ret v)
      (fun newValue =>
         bind (wrapping "failed to update property" (patch (Property d) newValue))
           (fun _ => bind (wrapping "failed to play sound" playSound)
                          (fun _ => ret tt)))
      (emit (GET (Property d)) w)
    = (let w1 := emit (GET (Property d)) w in
       let w2 := emit (PATCH (Property d) (GoFmt.Sprintf_f v)) w1 in
       if patch_fault w
       then (Err (Wrap "failed to update property"
                    (Wrap "failed to make request" (Underlying "net/http"))), w2)
       else
         let w3 := emit AFPLAY (store (Property d) (GoFmt.Sprintf_f v) w2) in
         if afplay_fault w
         then (Err (Wrap "failed to play sound"
                      (Wrap "failed to run afplay" (Underlying "os/exec"))), w3)
         else (Ok tt, w3))).
  { intros v. unfold bind, wrapping, patch, playSound, ret. cbn.
    destruct (patch_fault w); cbn; [reflexivity|]. now destruct (afplay_fault w). }
  destruct (String.eqb (Scale d) scaleLinear); [apply Hv|].
  destruct (String.eqb (Scale d) scaleLog); [|reflexivity].
  destruct (newVolumeLog' d current inc) as [v|e|msg]; [apply Hv|reflexivity..].
Qed.




(** X4.  When the GET of the gain property fails, [IncDec] returns the
    error "failed to get current value" around the error of the GET, whatever
    the descriptor: nothing is computed, so there is no panic, no PATCH and
    no sound. *)
Theorem IncDec_failed_read d inc w :
  unreadable w (Property d) ->
  (exists e, fst (IncDec' d inc w) = Err (Wrap "failed to get current value" e)) /\
  log (snd (IncDec' d inc w)) = log w ++ [GET (Property d)] /\
  datastore (snd (IncDec' d inc w)) = datastore w.
Proof.
  intros H. destruct (IncDec_unreadable d inc w H) as (e & ->). cbn.
  repeat split. now exists e.
Qed.


End Operations.

(** ** Mute, in every world *)

(** X6.  When the GET of the mute property fails, [Mute] returns the error
    "failed to get current value" around the error of the GET, and issues no
    PATCH. *)
Theorem Mute_failed_read d w :
  unreadable w (MuteProperty d) ->
  (exists e, fst (Mute d w) = Err (Wrap "failed to get current value" e)) /\
  log (snd (Mute d w)) = log w ++ [GET (MuteProperty d)] /\
  datastore (snd (Mute d w)) = datastore w.
Proof.
  intros H. destruct (Mute_unreadable d w H) as (e & ->). cbn.
  repeat split. now exists e.
Qed.

(** X7.  In every world and for every descriptor, [Mute] issues the GET of
    the mute property and then at most one PATCH, of the mute property and
    of the value 0 or 1.  It never plays the sound, and it writes no other
    property: the datastore is the former one, or the former one with the
    value written when the PATCH went through. *)
Theorem Mute_effects d w :
  let r := Mute d w in
  (log (snd r) = log w ++ [GET (MuteProperty d)] /\
   datastore (snd r) = datastore w /\ fst r <> Ok tt) \/
  exists v,
    (v = 0 \/ v = 1) /\
    log (snd r) = log w ++ [GET (MuteProperty d); PATCH (MuteProperty d) v] /\
    (if patch_fault w
     then datastore (snd r) = datastore w /\ fst r <> Ok tt
     else datastore (snd r) = <[MuteProperty d := v]> (datastore w) /\ fst r = Ok tt).
Proof.
  cbn zeta.
  destruct (reads_or_unreadable w (MuteProperty d)) as [(current & Hr)|Hu].
  - rewrite (Mute_run _ _ _ Hr). cbn zeta.
    destruct (current =? 0); [|destruct (current =? 1)].
    + right. exists 1. split; [now right|].
      destruct (patch_fault w); cbn; rewrite <- !app_assoc; repeat split; discriminate.
    + right. exists 0. split; [now left|].
      destruct (patch_fault w); cbn; rewrite <- !app_assoc; repeat split; discriminate.
    + left. cbn. repeat split. discriminate.
  - destruct (Mute_unreadable d w Hu) as (e & ->). left. cbn.
    repeat split. discriminate.
Qed.


(** ** Linear stepping, for every descriptor *)

(** The clamp [math.Min(math.Max(x, lo), hi)] of a number between bounds in
    order. *)
Lemma clamp_between lo hi x :
  is_nan x = false -> (lo <=? hi) = true ->
  (lo <=? GoMath.Min (GoMath.Max x lo) hi) = true /\
  (GoMath.Min (GoMath.Max x lo) hi <=? hi) = true.
Proof.
  intros Nx H. apply leb_iff in H. destruct H as (Nlo & Nhi & H).
  pose proof (Max_not_nan x lo Nx Nlo) as Nm.
  assert (Hm : (Ford lo <= Ford (GoMath.Max x lo))%Z).
  { destruct (Max_cases x lo Nx Nlo) as [[-> H']|[-> H']]; lia. }
  destruct (Min_cases (GoMath.Max x lo) hi Nm Nhi) as [[-> H']|[-> H']];
    split; apply leb_iff; repeat split; trivial; lia.
Qed.

(** The value [newVolumeLinear] has stepped to is a number when the value
    read is one and the step is finite. *)
Lemma stepped_number d current (inc : bool) :
  is_finite ((Max d - Min d) / volumeDenominations) = true ->
  is_nan current = false ->
  is_nan (if inc then Ceil current + (Max d - Min d) / volumeDenominations
          else Ceil current - (Max d - Min d) / volumeDenominations) = false.
Proof.
  intros Hs Nc. pose proof (Ceil_not_nan _ Nc).
  destruct inc; [now apply add_not_nan|now apply sub_not_nan].
Qed.

Lemma newVolumeLinear_range d current inc :
  is_finite ((Max d - Min d) / volumeDenominations) = true ->
  (Min d <=? Max d) = true ->
  is_nan current = false ->
  (inc = false /\ newVolumeLinear d current inc = ZeroVolume d) \/
  ((Min d <=? newVolumeLinear d current inc) = true /\
   (newVolumeLinear d current inc <=? Max d) = true).
Proof.
  intros Hs Hb Nc. pose proof (stepped_number d current inc Hs Nc) as Nv.
  unfold newVolumeLinear. cbn zeta.
  destruct (negb inc && _) eqn:E.
  - left. split; trivial. apply andb_true_iff in E. destruct E as [E _].
    now destruct inc.
  - right. now apply clamp_between.
Qed.

(** X9.  For every descriptor whose bounds are in order and whose step is
    finite, and for every value read that is a number, the value
    [newVolumeLinear] returns lies between [Min] and [Max], bounds included,
    unless it is [ZeroVolume], which only a decrease returns. *)
Theorem newVolumeLinear_within_bounds d current inc :
  is_finite ((Max d - Min d) / volumeDenominations) = true ->
  (Min d <=? Max d) = true ->
  is_nan current = false ->
  (inc = false /\ newVolumeLinear d current inc = ZeroVolume d) \/
  ((Min d <=? newVolumeLinear d current inc) = true /\
   (newVolumeLinear d current inc <=? Max d) = true).
Proof. exact (newVolumeLinear_range d current inc). Qed.

(** X10.  For every descriptor with [Min] below [Max], when the value
    stepped to is at or above [Max], in either direction, [newVolumeLinear]
    returns a value equal to [Max]: the nearest bound. *)
Theorem newVolumeLinear_saturates_at_max d current (inc : bool) :
  let delta := (Max d - Min d) / volumeDenominations in
  (Min d <? Max d) = true ->
  (Max d <=? (if inc then Ceil current + delta else Ceil current - delta)) = true ->
  (newVolumeLinear d current inc =? Max d) = true.
Proof.
  cbn zeta. intros Hb Hv.
  apply ltb_iff in Hb. destruct Hb as (Nlo & Nhi & Hb).
  apply leb_iff in Hv. destruct Hv as (_ & Nv & Hv).
  unfold newVolumeLinear. cbn zeta.
  set (newVolume := if inc then _ else _) in *.
  assert (E : (newVolume <=? Min d) = false) by (apply leb_false_iff; trivial; lia).
  rewrite E, andb_false_r.
  pose proof (Max_not_nan newVolume (Min d) Nv Nlo) as Nm.
  assert (Hm : (Ford newVolume <= Ford (GoMath.Max newVolume (Min d)))%Z).
  { destruct (Max_cases newVolume (Min d) Nv Nlo) as [[-> H']|[-> H']]; lia. }
  apply eqb_iff.
  destruct (Min_cases (GoMath.Max newVolume (Min d)) (Max d) Nm Nhi) as [[-> H']|[-> H']];
    repeat split; trivial; lia.
Qed.

(** ** Linear stepping on "main" *)

Lemma on_positions_spec P a len :
  on_positions P a len = true ->
  forall s n, (a <= n < a + Z.of_nat len)%Z -> P n (float_of_int s n) = true.
Proof.
  unfold on_positions. rewrite forallb_forall. intros H s n Hn.
  specialize (H n (Zrange_In _ _ _ Hn)). apply andb_true_iff in H.
  destruct s; tauto.
Qed.

(** The ceiling of a number, with the integer that it is. *)
Lemma Ceil_position (x : float) :
  is_nan x = false ->
  (ord_int (- 2 ^ 52) < Ford x <= ord_int (2 ^ 52 - 1))%Z ->
  exists s n, Ceil x = float_of_int s n /\
              (ord_int (n - 1) < Ford x <= ord_int n)%Z.
Proof.
  intros Nx Hx.
  assert (H1074 : (0 < 2 ^ 1074)%Z) by (apply Z.pow_pos_nonneg; lia).
  assert (Hn : exists n, (- 2 ^ 52 < n <= 2 ^ 52 - 1)%Z /\
                         (ord_int (n - 1) < Ford x <= ord_int n)%Z).
  { exists ((Ford x + 2 ^ 1074 - 1) / 2 ^ 1074)%Z.
    pose proof (Z.div_mod (Ford x + 2 ^ 1074 - 1) (2 ^ 1074) ltac:(lia)) as Hdm.
    pose proof (Z.mod_pos_bound (Ford x + 2 ^ 1074 - 1) (2 ^ 1074) H1074) as Hr.
    unfold ord_int in *.
    set (K := (2 ^ 1074)%Z) in *. set (q := ((Ford x + K - 1) / K)%Z) in *.
    set (r := ((Ford x + K - 1) mod K)%Z) in *.
    assert (H52 : (0 < 2 ^ 52)%Z) by (apply Z.pow_pos_nonneg; lia).
    set (B := (2 ^ 52)%Z) in *.
    repeat split; nia. }
  destruct Hn as (n & Hn & Hpos).
  destruct (Ceil_between (n - 1) n x) as (s & n' & Hn' & Hc); trivial; try lia.
  assert (n' = n) by lia. subst n'.
  exists s, n. now split.
Qed.

Lemma ord_int_lt a b : (ord_int a < ord_int b)%Z <-> (a < b)%Z.
Proof.
  unfold ord_int.
  assert (H1074 : (0 < 2 ^ 1074)%Z) by (apply Z.pow_pos_nonneg; lia).
  set (K := (2 ^ 1074)%Z) in *. split; nia.
Qed.

Lemma ord_int_le a b : (ord_int a <= ord_int b)%Z <-> (a <= b)%Z.
Proof.
  unfold ord_int.
  assert (H1074 : (0 < 2 ^ 1074)%Z) by (apply Z.pow_pos_nonneg; lia).
  set (K := (2 ^ 1074)%Z) in *. split; nia.
Qed.

Lemma finite_of_position x :
  is_nan x = false -> (- ord_inf < Ford x < ord_inf)%Z -> is_finite x = true.
Proof.
  rewrite is_finite_spec, is_nan_spec. unfold Ford.
  destruct (Prim2SF x) as [s|s| |s m e]; cbn; trivial; try discriminate.
  destruct s; lia.
Qed.

(** The constants of "main" on the integer line. *)
Lemma main_positions :
  Ford (-127) = ord_int (-127) /\ Ford (-50) = ord_int (-50) /\ Ford 0 = ord_int 0 /\
  (ord_int (- 2 ^ 52) < ord_int (-127))%Z /\ (ord_int 0 <= ord_int (2 ^ 52 - 1))%Z /\
  is_finite ((Max main_device - Min main_device) / volumeDenominations) = true /\
  (Min main_device <=? Max main_device) = true.
Proof. repeat split; now vm_compute. Qed.

(** X11.  On "main" an increase raises every value below 0, the maximum:
    the value returned is strictly above the value read, whatever fraction
    the latter carries, so that repeated increases cannot stall below the
    maximum. *)
Theorem main_increase_raises v :
  (v <? 0) = true ->
  (v <? newVolumeLinear main_device v true) = true.
Proof.
  intros H. apply ltb_iff in H. destruct H as (Nv & _ & H).
  destruct main_positions as (P127 & P50 & P0 & Hlo & Hhi & Hs & Hb).
  rewrite P0 in H.
  destruct (Z.lt_ge_cases (Ford v) (ord_int (-50))) as [Hlow|Hin].
  - destruct (newVolumeLinear_range main_device v true Hs Hb Nv) as [[? _]|[Hr _]];
      [discriminate|].
    apply leb_iff in Hr. destruct Hr as (_ & Nr & Hr). cbn [Min main_device] in Hr.
    rewrite P50 in Hr. apply ltb_iff. repeat split; trivial. lia.
  - destruct (Ceil_position v Nv) as (s & n & Hc & Hn1 & Hn2).
    { apply ord_int_lt in Hlo. split; [|lia].
      apply Z.lt_le_trans with (ord_int (-50)); [now apply ord_int_lt|exact Hin]. }
    assert (Hn : (-50 <= n < -50 + Z.of_nat 51)%Z).
    { split.
      - apply ord_int_le. lia.
      - assert (n - 1 < 0)%Z by (apply ord_int_lt; lia). lia. }
    pose proof (on_positions_spec
      (fun n c =>
         let r := GoMath.Min (GoMath.Max (c + (0 - -50) / volumeDenominations) (-50)) 0 in
         negb (is_nan r) &&
         ((ord_int n <? Ford r)%Z || ((n =? 0)%Z && (0 <=? Ford r)%Z)))
      (-50) 51 ltac:(computed) s n Hn) as HP.
    unfold newVolumeLinear. rewrite Hc. cbn [negb andb Min Max main_device].
    cbn zeta in HP.
    apply andb_true_iff in HP. destruct HP as [Nr HP]. apply negb_true_iff in Nr.
    apply ltb_iff. repeat split; trivial.
    apply orb_true_iff in HP. destruct HP as [HP|HP].
    + apply Z.ltb_lt in HP. lia.
    + apply andb_true_iff in HP. destruct HP as [_ HP]. apply Z.leb_le in HP.
      change (ord_int 0) with 0%Z in H. lia.
Qed.

(** X12.  On "main" a decrease lowers every value above -127, the zero
    volume: the value returned is strictly below the value read. *)
Theorem main_decrease_lowers v :
  (-127 <? v) = true ->
  (newVolumeLinear main_device v false <? v) = true.
Proof.
  intros H. apply ltb_iff in H. destruct H as (_ & Nv & H).
  destruct main_positions as (P127 & P50 & P0 & Hlo & Hhi & Hs & Hb).
  rewrite P127 in H.
  destruct (Z.lt_ge_cases (ord_int 0) (Ford v)) as [Hhigh|Hin].
  - change (ord_int 0) with 0%Z in Hhigh.
    apply ltb_iff.
    destruct (newVolumeLinear_range main_device v false Hs Hb Nv) as [[_ ->]|[_ Hr]].
    + split; [reflexivity|split; [exact Nv|]].
      cbn [ZeroVolume main_device]. rewrite P127. exact H.
    + apply leb_iff in Hr. destruct Hr as (Nr & _ & Hr). cbn [Max main_device] in Hr.
      rewrite P0 in Hr. change (ord_int 0) with 0%Z in Hr.
      repeat split; trivial. lia.
  - destruct (Ceil_position v Nv) as (s & n & Hc & Hn1 & Hn2); [lia|].
    assert (Hn : (-126 <= n < -126 + Z.of_nat 127)%Z).
    { split.
      - assert (-127 < n)%Z by (apply ord_int_lt; lia). lia.
      - assert (n - 1 < 0)%Z by (apply ord_int_lt; lia). lia. }
    pose proof (on_positions_spec
      (fun n c =>
         let r := if c - (0 - -50) / volumeDenominations <=? -50 then -127
                  else GoMath.Min (GoMath.Max (c - (0 - -50) / volumeDenominations) (-50)) 0 in
         negb (is_nan r) && (Ford r <=? ord_int (n - 1))%Z)
      (-126) 127 ltac:(computed) s n Hn) as HP.
    unfold newVolumeLinear. rewrite Hc. cbn [negb andb Min Max ZeroVolume main_device].
    cbn zeta in HP.
    apply andb_true_iff in HP. destruct HP as [Nr HP]. apply negb_true_iff in Nr.
    apply Z.leb_le in HP.
    apply ltb_iff. repeat split; trivial. lia.
Qed.

(** X13.  On "main", from a value of the range [[-50, 0]], an increase
    followed by a decrease, and a decrease followed by an increase, both
    return a value that differs from the first one by at most one step. *)
Theorem main_there_and_back v :
  (-50 <=? v) = true -> (v <=? 0) = true ->
  let step := (Max main_device - Min main_device) / volumeDenominations in
  within step (newVolumeLinear main_device (newVolumeLinear main_device v true) false) v /\
  within step (newVolumeLinear main_device (newVolumeLinear main_device v false) true) v.
Proof.
  intros H1 H2. cbn zeta.
  apply leb_iff in H1. destruct H1 as (_ & Nv & H1).
  apply leb_iff in H2. destruct H2 as (_ & _ & H2).
  destruct main_positions as (P127 & P50 & P0 & Hlo & Hhi & Hs & Hb).
  rewrite P50 in H1. rewrite P0 in H2.
  assert (Hinf : (- ord_inf < ord_int (-50))%Z /\ (ord_int 0 < ord_inf)%Z)
    by (split; now vm_compute).
  assert (Fv : is_finite v = true) by (apply finite_of_position; trivial; lia).
  destruct (Ceil_position v Nv) as (s & n & Hc & Hn1 & Hn2).
  { split; [|lia].
    apply Z.lt_le_trans with (ord_int (-50)); [computed|exact H1]. }
  assert (Hn : (-50 <= n < -50 + Z.of_nat 51)%Z).
  { split.
    - apply ord_int_le. lia.
    - assert (n - 1 < 0)%Z by (apply ord_int_lt; lia). lia. }
  pose proof (on_positions_spec
    (fun n c =>
       let up := GoMath.Min (GoMath.Max (c + (0 - -50) / volumeDenominations) (-50)) 0 in
       let down := if c - (0 - -50) / volumeDenominations <=? -50 then -127
                   else GoMath.Min (GoMath.Max (c - (0 - -50) / volumeDenominations) (-50)) 0 in
       let step := (Max main_device - Min main_device) / volumeDenominations in
       let r1 := newVolumeLinear main_device up false in
       let r2 := newVolumeLinear main_device down true in
       is_finite r1 && is_finite r2 &&
       (ord_int n - Ford step <=? Ford r1)%Z && (Ford r1 <=? ord_int (n - 1) + Ford step)%Z &&
       (ord_int n - Ford step <=? Ford r2)%Z && (Ford r2 <=? ord_int (n - 1) + Ford step)%Z)
    (-50) 51 ltac:(computed) s n Hn) as HP.
  cbn zeta in HP.
  unfold newVolumeLinear at 2 4. rewrite Hc. cbn [negb andb Min Max ZeroVolume main_device].
  cbn [Min Max ZeroVolume main_device] in HP.
  repeat (apply andb_true_iff in HP; destruct HP as [HP ?]).
  repeat match goal with H : (_ <=? _)%Z = true |- _ => apply Z.leb_le in H end.
  unfold within. repeat split; trivial; lia.
Qed.

(** ** Logarithmic stepping from silence *)

Lemma zero_cases x : (x =? 0) = true -> x = 0 \/ x = -0.
Proof.
  rewrite FloatAxioms.eqb_spec. intros H.
  rewrite <- (SF2Prim_Prim2SF x).
  destruct (Prim2SF x) as [s|s| |s m e]; try destruct s; try discriminate H;
    [now right|now left].
Qed.

Lemma neg_infinity_plus y : is_finite y = true -> neg_infinity + y = neg_infinity.
Proof.
  rewrite is_finite_spec. intros H. apply Prim2SF_inj. rewrite add_spec.
  change (Prim2SF neg_infinity) with (S754_infinity true).
  destruct (Prim2SF y) as [s|s| |s m e]; try discriminate H; reflexivity.
Qed.

Lemma neg_infinity_minus y : is_finite y = true -> neg_infinity - y = neg_infinity.
Proof.
  rewrite is_finite_spec. intros H. apply Prim2SF_inj. rewrite sub_spec.
  change (Prim2SF neg_infinity) with (S754_infinity true).
  destruct (Prim2SF y) as [s|s| |s m e]; try discriminate H; reflexivity.
Qed.

Section Silence.

Variable log10_core : float -> float.
Variable pow_core : float -> float -> float.

Local Abbreviation Pow' := (GoMath.Pow pow_core).
Local Abbreviation newVolumeLog' := (newVolumeLog log10_core pow_core).

(** Silence, the amplitude ratio 0 of either sign, is minus infinity in
    decibels, whatever the kernels. *)
Lemma currentDB_of_silence current :
  (current =? 0) = true -> currentDB log10_core pow_core current = neg_infinity.
Proof. intros H. destruct (zero_cases _ H) as [->| ->]; reflexivity. Qed.

(** X14.  Silence stays silent: for every descriptor with a finite step and
    a [ZeroVolume] equal to 0, a decrease from the amplitude ratio 0 returns
    [ZeroVolume], whatever the kernels of the library compute. *)
Theorem newVolumeLog_decrease_from_silence d current :
  (current =? 0) = true ->
  is_finite ((Max d - Min d) / volumeDenominations) = true ->
  (ZeroVolume d =? 0) = true ->
  newVolumeLog' d current false = Ok (ZeroVolume d).
Proof.
  intros Hc Hs Hz. pose proof (currentDB_of_silence _ Hc) as HdB.
  destruct (finite_step_bounds _ _ Hs) as [_ Nlo].
  unfold currentDB in HdB. unfold newVolumeLog. cbn zeta. rewrite HdB.
  change (Ceil neg_infinity) with neg_infinity.
  rewrite (neg_infinity_minus _ Hs).
  assert (E : (neg_infinity <=? Min d) = true).
  { apply leb_iff. repeat split; trivial. rewrite Ford_neg_infinity.
    apply Ford_bounds. }
  rewrite E, Hz. reflexivity.
Qed.

(** X15.  For every descriptor with [Min] below [Max] and a finite step, an
    increase from the amplitude ratio 0 lands on the lower bound: the value
    returned is the amplitude ratio of [Min] decibels, clamped to the unit
    interval. *)
Theorem newVolumeLog_increase_from_silence d current :
  (current =? 0) = true ->
  is_finite ((Max d - Min d) / volumeDenominations) = true ->
  (Min d <? Max d) = true ->
  newVolumeLog' d current true
  = Ok (GoMath.Min (GoMath.Max (Sqrt (Pow' 10 (Min d / 10))) 0) 1).
Proof.
  intros Hc Hs Hb. pose proof (currentDB_of_silence _ Hc) as HdB.
  apply ltb_iff in Hb. destruct Hb as (Nlo & Nhi & Hb).
  unfold currentDB in HdB. unfold newVolumeLog. cbn zeta. rewrite HdB.
  change (Ceil neg_infinity) with neg_infinity.
  rewrite (neg_infinity_plus _ Hs). cbn [negb andb].
  assert (E1 : GoMath.Max neg_infinity (Min d) = Min d).
  { destruct (Max_cases neg_infinity (Min d) eq_refl Nlo) as [[E H]|[E H]]; trivial.
    rewrite E. symmetry. apply Ford_neg_infinity_inv; trivial.
    rewrite Ford_neg_infinity in H. pose proof (Ford_bounds (Min d)). lia. }
  assert (E2 : GoMath.Min (Min d) (Max d) = Min d).
  { destruct (Min_cases (Min d) (Max d) Nlo Nhi) as [[E H]|[E H]]; trivial. lia. }
  rewrite E1, E2. reflexivity.
Qed.

End Silence.

(** ** The table of devices and the command line *)

Lemma Mute_outcome d w :
  fst (Mute d w) = Ok tt \/ exists e, fst (Mute d w) = Err e.
Proof.
  destruct (reads_or_unreadable w (MuteProperty d)) as [(current & Hr)|Hu].
  - rewrite (Mute_run _ _ _ Hr). cbn zeta.
    destruct (current =? 0); [|destruct (current =? 1)];
      try destruct (patch_fault w); cbn; eauto.
  - destruct (Mute_unreadable d w Hu) as (e & ->). cbn. eauto.
Qed.


Section Table.

Variable log10_core : float -> float.
Variable pow_core : float -> float -> float.

Local Abbreviation IncDec' := (IncDec log10_core pow_core).
Local Abbreviation newValue' := (newValue log10_core pow_core).

(** On a device of the table the stepping functions return a value. *)
Lemma newValue_of_table name d current inc :
  devices !! name = Some d -> exists v, newValue' d current inc = Ok v.
Proof.
  intros H. destruct (devices_inv _ _ H) as [[_ ->]|[_ ->]].
  - eexists. reflexivity.
  - unfold newValue, newVolumeLog. cbn [Scale computer_device].
    change (String.eqb scaleLog scaleLinear) with false.
    change (String.eqb scaleLog scaleLog) with true. cbn iota zeta.
    destruct (negb inc && _); eexists; reflexivity.
Qed.

Lemma IncDec_outcome name d inc w :
  devices !! name = Some d ->
  fst (IncDec' d inc w) = Ok tt \/ exists e, fst (IncDec' d inc w) = Err e.
Proof.
  intros H.
  destruct (reads_or_unreadable w (Property d)) as [(current & Hr)|Hu].
  - rewrite (IncDec_run _ _ _ _ _ _ Hr). cbn zeta.
    destruct (newValue_of_table name d current inc H) as (v & ->).
    destruct (patch_fault w); [|destruct (afplay_fault w)]; cbn; eauto.
  - destruct (IncDec_unreadable log10_core pow_core d inc w Hu) as (e & ->). cbn. eauto.
Qed.


(** X18.  No device of the table can make [IncDec] panic: in every world,
    for either direction and whatever the kernels of the library compute,
    the operation on "main" or on "computer" returns, without an error or
    with one.  Neither [panic("unknown scale")] nor [panic("logarithmic
    zero volume should be zero")] is reached. *)
Theorem IncDec_on_table_never_panics name d inc w :
  devices !! name = Some d ->
  fst (IncDec' d inc w) = Ok tt \/ exists e, fst (IncDec' d inc w) = Err e.
Proof. exact (IncDec_outcome name d inc w). Qed.

Variable url_Parse : string -> option string.

Local Abbreviation main' := (main url_Parse log10_core pow_core).

(** X19.  Neither of the two [panic] statements of the program can be
    reached from [main]: for every list of arguments, in every world,
    whatever the parser of addresses and the kernels of the library return,
    [main] returns, and the status is 0, or exits with status 1 after a
    message. *)
Theorem main_never_panics Args w :
  fst (main url_Parse log10_core pow_core Args w) = Returns \/
  exists printed, fst (main url_Parse log10_core pow_core Args w) = Exits 1 printed.
Proof.
  unfold main, NewFromIPAddress.
  destruct (length Args <? 3)%nat; [cbn; eauto|].
  destruct (url_Parse _); [|cbn; eauto].
  destruct (devices !! nth 1 Args ""%string) as [d|] eqn:Hd; [|cbn; eauto].
  cbn zeta. unfold finish.
  destruct (String.eqb _ "mute").
  { destruct (Mute_outcome d w) as [H|(e & H)];
      destruct (Mute d w) as [[[]|e'|msg] w']; cbn in *; try discriminate; eauto. }
  destruct (_ || _).
  { destruct (IncDec_outcome _ d true w Hd) as [H|(e & H)];
      destruct (IncDec' d true w) as [[[]|e'|msg] w']; cbn in *; try discriminate; eauto. }
  destruct (_ || _).
  { destruct (IncDec_outcome _ d false w Hd) as [H|(e & H)];
      destruct (IncDec' d false w) as [[[]|e'|msg] w']; cbn in *; try discriminate; eauto. }
  cbn. eauto.
Qed.

(** X20.  An invocation with fewer than three arguments, with a device that
    is not in the table, or with a command that is none of "mute", "inc",
    "increment", "dec" and "decrement", exits with status 1 and leaves the
    world as it was: no request is sent to the interface. *)
Theorem main_rejects Args w :
  (length Args < 3)%nat \/
  devices !! nth 1 Args ""%string = None \/
  ~ In (nth 2 Args ""%string)
       ["mute"; "inc"; "increment"; "dec"; "decrement"]%string ->
  exists printed, main' Args w = (Exits 1 printed, w).
Proof.
  intros H. unfold main, NewFromIPAddress.
  destruct (Nat.ltb_spec (length Args) 3) as [Hl|Hl]; [eauto|].
  destruct (url_Parse _); [|eauto].
  destruct (devices !! nth 1 Args ""%string) as [d|] eqn:Hd; [|eauto].
  destruct H as [H|[H|H]]; [lia|discriminate|].
  cbn zeta.
  destruct (String.eqb_spec (nth 2 Args ""%string) "mute") as [E|_].
  { destruct H. rewrite E. cbn. tauto. }
  destruct (String.eqb_spec (nth 2 Args ""%string) "inc") as [E|_].
  { destruct H. rewrite E. cbn. tauto. }
  destruct (String.eqb_spec (nth 2 Args ""%string) "increment") as [E|_].
  { destruct H. rewrite E. cbn. tauto. }
  destruct (String.eqb_spec (nth 2 Args ""%string) "dec") as [E|_].
  { destruct H. rewrite E. cbn. tauto. }
  destruct (String.eqb_spec (nth 2 Args ""%string) "decrement") as [E|_].
  { destruct H. rewrite E. cbn. tauto. }
  cbn. eauto.
Qed.


End Table.

(** ** Reaching the ends of the range *)

(** X22.  On "main", from any value of the range [[-50, 0]], thirteen
    increases in a row reach the maximum and seventeen decreases in a row
    reach the zero volume.  Because the ceiling is taken before each step,
    after the first step an increase advances by 4 and a decrease by 3, not
    by the step of 3.125, so the two counts differ. *)
Theorem main_reaches_the_ends v :
  (-50 <=? v) = true -> (v <=? 0) = true ->
  (Nat.iter 13 (fun x => newVolumeLinear main_device x true) v =? Max main_device) = true /\
  (Nat.iter 17 (fun x => newVolumeLinear main_device x false) v =? ZeroVolume main_device)
  = true.
Proof.
  intros H1 H2.
  destruct (Ceil_in_range (-50) 0 (-50) 0 v
              ltac:(computed) ltac:(computed) ltac:(computed) ltac:(computed)
              H1 H2) as (s & n & Hn & Hc).
  assert (Eup : newVolumeLinear main_device v true
                = GoMath.Min (GoMath.Max (float_of_int s n + (0 - -50) / volumeDenominations)
                                (-50)) 0).
  { unfold newVolumeLinear. now rewrite Hc. }
  assert (Edown : newVolumeLinear main_device v false
                  = if float_of_int s n - (0 - -50) / volumeDenominations <=? -50 then -127
                    else GoMath.Min
                           (GoMath.Max (float_of_int s n - (0 - -50) / volumeDenominations)
                              (-50)) 0).
  { unfold newVolumeLinear. now rewrite Hc. }
  rewrite (Nat.iter_succ_r 12), (Nat.iter_succ_r 16), Eup, Edown. apply andb_true_iff.
  apply (on_ints_spec
           (fun c =>
              (Nat.iter 12 (fun x => newVolumeLinear main_device x true)
                 (GoMath.Min (GoMath.Max (c + (0 - -50) / volumeDenominations) (-50)) 0)
               =? Max main_device) &&
              (Nat.iter 16 (fun x => newVolumeLinear main_device x false)
                 (if c - (0 - -50) / volumeDenominations <=? -50 then -127
                  else GoMath.Min (GoMath.Max (c - (0 - -50) / volumeDenominations) (-50)) 0)
               =? ZeroVolume main_device))
           (-50) 51); [now vm_compute|lia].
Qed.

(** The counts are the least ones: twelve increases from the minimum stop
    short of the maximum, and sixteen decreases from the maximum stop short
    of the zero volume. *)
Example main_ends_not_sooner :
  Nat.iter 12 (fun x => newVolumeLinear main_device x true) (-50) = -2.875 /\
  Nat.iter 16 (fun x => newVolumeLinear main_device x false) 0 = -48.125.
Proof. split; now vm_compute. Qed.

Section FullAmplitude.

Variable log10_core : float -> float.
Variable pow_core : float -> float -> float.

(** X23.  For every descriptor with [Min] below a [Max] of 0 decibels,
    whenever the decibel value stepped to is at or above [Max],
    [newVolumeLog] returns exactly 1, the full amplitude, on an increase as
    on a decrease and whatever the kernels of the library compute. *)
Theorem newVolumeLog_saturates_at_full d current inc :
  (Min d <? Max d) = true -> (Max d =? 0) = true ->
  (Max d <=? steppedDB log10_core pow_core d current inc) = true ->
  newVolumeLog log10_core pow_core d current inc = Ok 1.
Proof.
  intros Hb Hz Hv. unfold steppedDB, currentDB in Hv. cbn zeta in Hv.
  apply ltb_iff in Hb. destruct Hb as (Nlo & Nhi & Hb).
  apply leb_iff in Hv. destruct Hv as (_ & Nv & Hv).
  unfold newVolumeLog. cbn zeta.
  match type of Nv with is_nan ?x = false => generalize dependent x end.
  intros newDB Nv Hv.
  assert (E : (newDB <=? Min d) = false) by (apply leb_false_iff; trivial; lia).
  rewrite E, andb_false_r.
  pose proof (Max_not_nan newDB (Min d) Nv Nlo) as Nm.
  assert (Hm : (Ford newDB <= Ford (GoMath.Max newDB (Min d)))%Z).
  { destruct (Max_cases newDB (Min d) Nv Nlo) as [[-> H']|[-> H']]; lia. }
  assert (Hc : (GoMath.Min (GoMath.Max newDB (Min d)) (Max d) =? 0) = true).
  { apply eqb_iff in Hz. destruct Hz as (_ & _ & Hz). apply eqb_iff.
    destruct (Min_cases (GoMath.Max newDB (Min d)) (Max d) Nm Nhi) as [[-> H']|[-> H']];
      repeat split; trivial; lia. }
  destruct (zero_cases _ Hc) as [-> | ->]; reflexivity.
Qed.

End FullAmplitude.

(** ** The statements above, on concrete inputs *)




Lemma IncDec_failed_read_witness :
  log (snd (IncDec unit_log10 unit_pow exponential_device true
              (unreachable {[ Property exponential_device := 0.5 ]})))
  = [GET (Property exponential_device)].
Proof.
  refine (proj1 (proj2 (IncDec_failed_read unit_log10 unit_pow exponential_device true
                          (unreachable {[ Property exponential_device := 0.5 ]}) _))).
  intros value [H _]. discriminate H.
Defined.

Lemma Mute_failed_read_witness :
  log (snd (Mute main_device (quiet empty))) = [GET (MuteProperty main_device)].
Proof.
  refine (proj1 (proj2 (Mute_failed_read main_device (quiet empty) _))).
  intros value [_ H]. discriminate H.
Defined.


Lemma newVolumeLinear_within_bounds_witness :
  (false = false /\ newVolumeLinear main_device (-48) false = ZeroVolume main_device) \/
  ((Min main_device <=? newVolumeLinear main_device (-48) false) = true /\
   (newVolumeLinear main_device (-48) false <=? Max main_device) = true).
Proof.
  exact (newVolumeLinear_within_bounds main_device (-48) false eq_refl eq_refl eq_refl).
Defined.

Lemma newVolumeLinear_saturates_at_max_witness :
  (newVolumeLinear main_device (-1) true =? Max main_device) = true.
Proof.
  exact (newVolumeLinear_saturates_at_max main_device (-1) true eq_refl eq_refl).
Defined.

Lemma main_increase_raises_witness :
  (-20.5 <? newVolumeLinear main_device (-20.5) true) = true.
Proof. exact (main_increase_raises (-20.5) eq_refl). Defined.

Lemma main_decrease_lowers_witness :
  (newVolumeLinear main_device (-20.5) false <? -20.5) = true.
Proof. exact (main_decrease_lowers (-20.5) eq_refl). Defined.

Lemma main_there_and_back_witness :
  within ((Max main_device - Min main_device) / volumeDenominations)
         (newVolumeLinear main_device (newVolumeLinear main_device (-20.5) true) false)
         (-20.5).
Proof. exact (proj1 (main_there_and_back (-20.5) eq_refl eq_refl)). Defined.

Lemma newVolumeLog_decrease_from_silence_witness :
  newVolumeLog unit_log10 unit_pow computer_device 0 false
  = Ok (ZeroVolume computer_device).
Proof.
  exact (newVolumeLog_decrease_from_silence unit_log10 unit_pow computer_device 0
           eq_refl eq_refl eq_refl).
Defined.

Lemma newVolumeLog_increase_from_silence_witness :
  newVolumeLog unit_log10 unit_pow computer_device 0 true
  = Ok (GoMath.Min
          (GoMath.Max (Sqrt (GoMath.Pow unit_pow 10 (Min computer_device / 10))) 0) 1).
Proof.
  exact (newVolumeLog_increase_from_silence unit_log10 unit_pow computer_device 0
           eq_refl eq_refl eq_refl).
Defined.

Lemma IncDec_on_table_never_panics_witness :
  fst (IncDec unit_log10 unit_pow computer_device false
         (quiet {[ Property computer_device := 0.5 ]})) = Ok tt \/
  exists e, fst (IncDec unit_log10 unit_pow computer_device false
                   (quiet {[ Property computer_device := 0.5 ]})) = Err e.
Proof.
  exact (IncDec_on_table_never_panics unit_log10 unit_pow "computer" computer_device false
           (quiet {[ Property computer_device := 0.5 ]}) eq_refl).
Defined.

Lemma main_rejects_witness :
  exists printed,
    main any_url unit_log10 unit_pow ["motu"; "phones"; "inc"]%string (quiet empty)
    = (Exits 1 printed, quiet empty).
Proof.
  apply (main_rejects unit_log10 unit_pow any_url ["motu"; "phones"; "inc"]%string (quiet empty)).
  right. left. reflexivity.
Defined.


Lemma main_reaches_the_ends_witness :
  (Nat.iter 13 (fun x => newVolumeLinear main_device x true) (-50) =? Max main_device)
  = true /\
  (Nat.iter 17 (fun x => newVolumeLinear main_device x false) (-50)
   =? ZeroVolume main_device) = true.
Proof. exact (main_reaches_the_ends (-50) eq_refl eq_refl). Defined.

Lemma newVolumeLog_saturates_at_full_witness :
  newVolumeLog unit_log10 unit_pow computer_device 1 true = Ok 1.
Proof.
  exact (newVolumeLog_saturates_at_full unit_log10 unit_pow computer_device 1 true
           eq_refl eq_refl eq_refl).
Defined.

(** * The round trip through decibels, in binary64 *)

(** ** Rounding to binary64, within one unit in the last place *)

Lemma shr_1_m mrs : (0 <= shr_m mrs)%Z -> shr_m (shr_1 mrs) = (shr_m mrs / 2)%Z.
Proof.
  destruct mrs as [m r s]; simpl. destruct m as [|[p|p|]|p]; simpl; intros H.
  - reflexivity.
  - apply Z.div_unique with 1%Z; lia.
  - apply Z.div_unique with 0%Z; lia.
  - reflexivity.
  - lia.
Qed.

Lemma iter_shr_1_m p : forall mrs,
  (0 <= shr_m mrs)%Z ->
  shr_m (SpecFloat.iter_pos shr_1 p mrs) = (shr_m mrs / 2 ^ Z.pos p)%Z.
Proof.
  assert (Hp : forall k, (0 < 2 ^ Z.pos k)%Z) by (intros; apply Z.pow_pos_nonneg; lia).
  induction p as [p IH|p IH|]; intros mrs H; simpl.
  - pose proof (shr_1_nonneg mrs H) as H1.
    pose proof (iter_shr_1_nonneg p _ H1) as H2.
    rewrite IH, IH, shr_1_m by trivial.
    specialize (Hp p).
    rewrite !Z.div_div by lia. f_equal.
    rewrite (Pos2Z.inj_xI p).
    replace (2 * Z.pos p + 1)%Z with (1 + Z.pos p + Z.pos p)%Z by lia.
    rewrite !Z.pow_add_r by lia. change (2 ^ 1)%Z with 2%Z. ring.
  - pose proof (iter_shr_1_nonneg p _ H) as H2.
    rewrite IH, IH by trivial. specialize (Hp p).
    rewrite !Z.div_div by lia. f_equal.
    rewrite (Pos2Z.inj_xO p).
    replace (2 * Z.pos p)%Z with (Z.pos p + Z.pos p)%Z by lia.
    rewrite !Z.pow_add_r by lia. ring.
  - now rewrite shr_1_m.
Qed.

Lemma loc_of_shr_record_of_loc m l : loc_of_shr_record (shr_record_of_loc m l) = l.
Proof. destruct l as [|[| |]]; reflexivity. Qed.

(** The first step of the rounding: the mantissa loses [n] bits. *)
Lemma shr_fexp_spec m e l :
  (0 <= m)%Z ->
  let n := Z.max 0 (fexp prec emax (Zdigits2 m + e) - e) in
  exists mrs, shr_fexp prec emax m e l = (mrs, (e + n)%Z) /\
              shr_m mrs = (m / 2 ^ n)%Z /\
              (n = 0%Z -> mrs = shr_record_of_loc m l).
Proof.
  intros H n. unfold shr_fexp, shr. subst n.
  destruct (fexp prec emax (Zdigits2 m + e) - e)%Z as [|p|p] eqn:E.
  - exists (shr_record_of_loc m l). split; [f_equal; lia|].
    split; [|trivial]. rewrite shr_record_of_loc_m. now rewrite Z.div_1_r.
  - exists (SpecFloat.iter_pos shr_1 p (shr_record_of_loc m l)).
    split; [f_equal; lia|]. split; [|lia].
    rewrite iter_shr_1_m by now rewrite shr_record_of_loc_m.
    rewrite shr_record_of_loc_m. f_equal.
  - exists (shr_record_of_loc m l). split; [f_equal; lia|].
    split; [|trivial]. rewrite shr_record_of_loc_m.
    replace (Z.max 0 (Z.neg p)) with 0%Z by lia. now rewrite Z.div_1_r.
Qed.

Lemma round_nearest_even_cases q l :
  round_nearest_even q l = q \/ round_nearest_even q l = (q + 1)%Z.
Proof.
  unfold round_nearest_even. destruct l as [|[| |]]; try destruct (Z.even q); auto.
Qed.

Lemma Zdigits2_bounds m :
  (0 < m)%Z -> (2 ^ (Zdigits2 m - 1) <= m < 2 ^ Zdigits2 m)%Z.
Proof. destruct m as [|p|p]; try lia. intros _. apply digits2_pos_bounds. Qed.

Lemma Zdigits2_nonneg m : (0 <= Zdigits2 m)%Z.
Proof. destruct m; simpl; lia. Qed.

Lemma Zdigits2_le m k : (0 <= k)%Z -> (0 <= m < 2 ^ k)%Z -> (Zdigits2 m <= k)%Z.
Proof.
  intros Hk [H0 H]. destruct (Z.eq_dec m 0%Z) as [->|Hm]; [simpl; lia|].
  destruct (Zdigits2_bounds m ltac:(lia)) as [Hlo _].
  pose proof (Zdigits2_nonneg m).
  destruct (Z.le_gt_cases (Zdigits2 m) k) as [|Hgt]; trivial.
  assert (2 ^ k <= 2 ^ (Zdigits2 m - 1))%Z by (apply Z.pow_le_mono_r; lia). lia.
Qed.

(** What [binary_round_aux] returns for the mantissa [m], the exponent [e]
    and any location: with [n] the number of bits that do not fit, [q] the
    mantissa without them and [E] the exponent that goes with it, the result
    stands at [q] or at [q + 1] units of [2^E], unless that overflows. *)
Lemma binary_round_aux_cases s m e l :
  (0 <= m)%Z ->
  let n := Z.max 0 (fexp prec emax (Zdigits2 m + e) - e) in
  let q := (m / 2 ^ n)%Z in
  let E := (e + n)%Z in
  exists c, (c = q \/ c = q + 1)%Z /\ (l = loc_Exact -> n = 0%Z -> c = q) /\
    ((binary_round_aux prec emax s m e l = S754_zero s /\ c = 0%Z) \/
     (exists m' e', binary_round_aux prec emax s m e l = S754_finite s m' e' /\
                    (E <= e' <= emax - prec)%Z /\ (Z.pos m' * 2 ^ (e' - E))%Z = c) \/
     (binary_round_aux prec emax s m e l = S754_infinity s /\
      (emax - prec <= E)%Z /\ (0 < c)%Z)).
Proof.
  intros Hm n q E.
  assert (Hn : (0 <= n)%Z) by (subst n; lia).
  assert (HE : (SpecFloat.emin prec emax <= E)%Z).
  { subst E n. unfold fexp. lia. }
  assert (Hq : (0 <= q < 2 ^ 53)%Z).
  { subst q. split; [apply Z.div_pos; [lia|apply Z.pow_pos_nonneg; lia]|].
    apply Z.div_lt_upper_bound; [apply Z.pow_pos_nonneg; lia|].
    rewrite <- Z.pow_add_r by lia.
    destruct (Z.eq_dec m 0%Z) as [->|Hm0]; [apply Z.pow_pos_nonneg; lia|].
    destruct (Zdigits2_bounds m ltac:(lia)) as [_ Hhi].
    eapply Z.lt_le_trans; [exact Hhi|]. apply Z.pow_le_mono_r; [lia|].
    subst n. unfold fexp, prec. lia. }
  unfold binary_round_aux.
  destruct (shr_fexp_spec m e l Hm) as (mrs & -> & Hmrs & Hloc).
  cbv beta iota. fold n in Hmrs, Hloc |- *. fold q in Hmrs. fold E.
  set (m1 := round_nearest_even (shr_m mrs) (loc_of_shr_record mrs)).
  assert (Hm1 : (m1 = q \/ m1 = q + 1)%Z).
  { subst m1. rewrite Hmrs. apply round_nearest_even_cases. }
  assert (Hex : l = loc_Exact -> n = 0%Z -> m1 = q).
  { intros -> Hn0. subst m1. rewrite (Hloc Hn0). cbn.
    unfold q. rewrite Hn0. now rewrite Z.div_1_r. }
  assert (Hm1' : (0 <= m1 <= 2 ^ 53)%Z) by lia.
  destruct (shr_fexp_spec m1 E loc_Exact ltac:(lia)) as (mrs2 & -> & Hmrs2 & _).
  cbv beta iota.
  set (n2 := Z.max 0 (fexp prec emax (Zdigits2 m1 + E) - E)) in *.
  assert (Hn2 : (n2 = 0 \/ (n2 = 1 /\ m1 = 2 ^ 53))%Z).
  { destruct (Z.eq_dec m1 (2 ^ 53)%Z) as [->|Hne].
    - right. split; trivial. subst n2.
      change (Zdigits2 (2 ^ 53)) with 54%Z. unfold fexp, prec in *. lia.
    - left. assert (Hd : (Zdigits2 m1 <= 53)%Z) by (apply Zdigits2_le; lia).
      subst n2. unfold fexp, prec in *. lia. }
  exists m1. split; [exact Hm1|]. split; [exact Hex|].
  rewrite Hmrs2.
  destruct Hn2 as [->|[-> ->]].
  - rewrite Z.div_1_r, Z.add_0_r.
    destruct m1 as [|p|p]; [left; now split|right|lia].
    destruct (Z.leb_spec E (emax - prec)).
    + left. exists p, E. repeat split; try lia. now rewrite Z.sub_diag, Z.mul_1_r.
    + right. repeat split; lia.
  - change (2 ^ 53 / 2 ^ 1)%Z with (Z.pos (2 ^ 52)).
    right. destruct (Z.leb_spec (E + 1) (emax - prec)).
    + left. exists (2 ^ 52)%positive, (E + 1)%Z. repeat split; try lia.
      replace (E + 1 - E)%Z with 1%Z by lia. reflexivity.
    + right. repeat split; try lia.
Qed.

(** ** Floats as real numbers *)

Local Open Scope R_scope.

Lemma pow2_pos k : 0 < pow2 k.
Proof. apply powerRZ_lt. lra. Qed.

Lemma pow2_add a b : pow2 (a + b) = pow2 a * pow2 b.
Proof. apply powerRZ_add. lra. Qed.

Lemma pow2_IZR k : (0 <= k)%Z -> IZR (2 ^ k) = pow2 k.
Proof.
  intros H. destruct k as [|p|p]; [reflexivity| |lia].
  exact (Zpower_pos_powerRZ 2 p).
Qed.

Lemma pow2_le a b : (a <= b)%Z -> pow2 a <= pow2 b.
Proof.
  intros H. replace b with (a + (b - a))%Z by lia. rewrite pow2_add.
  rewrite <- (pow2_IZR (b - a)) by lia.
  assert (1 <= IZR (2 ^ (b - a))).
  { apply IZR_le. assert (0 < 2 ^ (b - a))%Z by (apply Z.pow_pos_nonneg; lia). lia. }
  pose proof (pow2_pos a). nra.
Qed.

Lemma pow2_lt a b : (a < b)%Z -> pow2 a < pow2 b.
Proof.
  intros H. replace b with (a + (b - a))%Z by lia. rewrite pow2_add.
  rewrite <- (pow2_IZR (b - a)) by lia.
  assert (2 <= IZR (2 ^ (b - a))).
  { apply IZR_le. replace (b - a)%Z with (1 + (b - a - 1))%Z by lia.
    rewrite Z.pow_add_r by lia.
    assert (0 < 2 ^ (b - a - 1))%Z by (apply Z.pow_pos_nonneg; lia). lia. }
  pose proof (pow2_pos a). nra.
Qed.

Lemma pow2_0 : pow2 0 = 1.
Proof. reflexivity. Qed.

(** The sign of a float as a factor. *)
Lemma sign_cases s : sign s = 1 \/ sign s = -1.
Proof. destruct s; [now right|now left]. Qed.

Lemma sign_xorb s t : sign (xorb s t) = sign s * sign t.
Proof. destruct s, t; unfold sign; simpl; lra. Qed.

(** [binary_round_aux] on a real number [T] that lies between [m] and
    [m + 1] units of [2^e]: the result is within one unit of [2^E] of [T],
    where [E] is the exponent that the rounding chooses. *)
Lemma binary_round_aux_R s m e l (T : R) :
  (0 <= m)%Z ->
  IZR m * pow2 e <= T < (IZR m + 1) * pow2 e ->
  (l = loc_Exact -> T = IZR m * pow2 e) ->
  let E := Z.max e (fexp prec emax (Zdigits2 m + e)) in
  let f := binary_round_aux prec emax s m e l in
  (f = S754_infinity s /\ (emax - prec <= E)%Z) \/
  (SFfin f = true /\
   exists V, SF2R f = sign s * V /\ 0 <= V /\ Rabs (V - T) <= pow2 E /\
             (l = loc_Exact -> E = e -> V = T)).
Proof.
  intros Hm [HT1 HT2] Hexact E f.
  destruct (binary_round_aux_cases s m e l Hm) as (c & Hc & Hcx & Hcases).
  set (n := Z.max 0 (fexp prec emax (Zdigits2 m + e) - e)) in *.
  set (q := (m / 2 ^ n)%Z) in *.
  assert (Hn : (0 <= n)%Z) by (subst n; lia).
  assert (HE : (e + n = E)%Z) by (subst E n; lia).
  rewrite HE in Hcases.
  assert (H2n : (0 < 2 ^ n)%Z) by (apply Z.pow_pos_nonneg; lia).
  pose proof (Z.div_mod m (2 ^ n) ltac:(lia)) as Hdm.
  pose proof (Z.mod_pos_bound m (2 ^ n) H2n) as Hr.
  fold q in Hdm.
  assert (Hq0 : (0 <= q)%Z) by (subst q; apply Z.div_pos; lia).
  pose proof (pow2_pos e) as Hpe. pose proof (pow2_pos E) as HpE.
  assert (HEe : pow2 E = pow2 e * IZR (2 ^ n)).
  { rewrite <- HE, pow2_add, pow2_IZR by lia. reflexivity. }
  (* T lies between q and q + 1 units of 2^E *)
  assert (Hlo : IZR q * pow2 E <= T).
  { rewrite HEe. apply Rle_trans with (IZR m * pow2 e); [|exact HT1].
    assert (IZR q * IZR (2 ^ n) <= IZR m).
    { rewrite <- mult_IZR. apply IZR_le. lia. }
    nra. }
  assert (Hhi : T < (IZR q + 1) * pow2 E).
  { rewrite HEe. apply Rlt_le_trans with ((IZR m + 1) * pow2 e); [exact HT2|].
    assert (IZR m + 1 <= (IZR q + 1) * IZR (2 ^ n)).
    { rewrite <- (plus_IZR m 1), <- (plus_IZR q 1), <- mult_IZR. apply IZR_le. lia. }
    nra. }
  assert (HV : Rabs (IZR c * pow2 E - T) <= pow2 E).
  { apply Rabs_le. destruct Hc as [-> | ->]; [|rewrite plus_IZR]; split; nra. }
  assert (HVx : l = loc_Exact -> E = e -> IZR c * pow2 E = T).
  { intros Hl He. assert (n = 0%Z) by lia.
    rewrite (Hcx Hl H), (Hexact Hl), He. unfold q. rewrite H.
    now rewrite Z.div_1_r. }
  assert (Hc0 : 0 <= IZR c) by (apply IZR_le; lia).
  destruct Hcases as [[Hf ->]|[(m' & e' & Hf & He' & Hme)|(Hf & HEmax & _)]].
  - right. subst f. rewrite Hf. split; [reflexivity|].
    exists 0. simpl. repeat split; try lra.
    + now rewrite Rmult_0_l in HV.
    + intros Hl He. rewrite <- (HVx Hl He). lra.
  - right. subst f. rewrite Hf. split; [reflexivity|].
    exists (IZR c * pow2 E). simpl. repeat split; trivial.
    + f_equal. rewrite <- Hme, mult_IZR, pow2_IZR by lia.
      rewrite Rmult_assoc, <- pow2_add.
      replace (e' - E + E)%Z with e' by lia. reflexivity.
    + nra.
  - left. subst f. now split.
Qed.

Lemma Rabs_sign s a : Rabs (sign s * a) = Rabs a.
Proof.
  destruct s; unfold sign.
  - rewrite <- (Rabs_Ropp a). f_equal. lra.
  - f_equal. lra.
Qed.

(** The mantissa [m] with [d] digits lies between [2^(d-1)] and [2^d]. *)
Lemma mantissa_R (m : Z) :
  (0 < m)%Z -> pow2 (Zdigits2 m - 1) <= IZR m < pow2 (Zdigits2 m).
Proof.
  intros H. destruct (Zdigits2_bounds m H) as [Hlo Hhi].
  assert (Hd : (1 <= Zdigits2 m)%Z).
  { destruct m as [|p|p]; try lia. simpl. lia. }
  rewrite <- !pow2_IZR by lia. split; [now apply IZR_le|now apply IZR_lt].
Qed.

(** The unit of the rounding is at most [2^-52] of the number rounded, or
    it is the least one. *)
Lemma unit_bound E T :
  E = (-1074)%Z \/ pow2 (E + 52) <= T ->
  0 <= T -> pow2 E <= pow2 (-52) * T + pow2 (-1074).
Proof.
  intros [->|H] HT.
  - pose proof (pow2_pos (-52)). nra.
  - replace E with (-52 + (E + 52))%Z at 1 by lia. rewrite pow2_add.
    pose proof (pow2_pos (-52)). pose proof (pow2_pos (-1074)). nra.
Qed.

(** The product of two floats is the product of the numbers, within one
    unit in the last place. *)
Lemma mul_R x y :
  is_finite x = true -> is_finite y = true ->
  (is_finite (x * y) = false /\ pow2 971 <= Rabs (to_R x * to_R y)) \/
  (is_finite (x * y) = true /\
   Rabs (to_R (x * y) - to_R x * to_R y)
   <= pow2 (-52) * Rabs (to_R x * to_R y) + pow2 (-1074)).
Proof.
  rewrite !is_finite_spec. unfold to_R. rewrite mul_spec. unfold SF64mul.
  pose proof (pow2_pos (-52)) as H52. pose proof (pow2_pos (-1074)) as H1074.
  destruct (Prim2SF x) as [s1|s1| |s1 m1 e1]; try discriminate;
    destruct (Prim2SF y) as [s2|s2| |s2 m2 e2]; try discriminate; intros _ _;
    try (right; split; [reflexivity|]; simpl SF2R;
         rewrite ?Rmult_0_l, ?Rmult_0_r, Rminus_0_r, Rabs_R0; lra).
  cbn [SFmul SF2R].
  set (T := IZR (Z.pos (m1 * m2)) * pow2 (e1 + e2)).
  assert (HT : sign s1 * (IZR (Z.pos m1) * pow2 e1) * (sign s2 * (IZR (Z.pos m2) * pow2 e2))
               = sign (xorb s1 s2) * T).
  { subst T. rewrite sign_xorb, Pos2Z.inj_mul, mult_IZR, pow2_add. ring. }
  rewrite HT.
  assert (HT0 : 0 < T).
  { subst T. apply Rmult_lt_0_compat; [now apply IZR_lt|apply pow2_pos]. }
  pose proof (mantissa_R (Z.pos (m1 * m2)) ltac:(lia)) as [Hlo _].
  pose proof (pow2_pos (e1 + e2)) as Hpe.
  destruct (binary_round_aux_R (xorb s1 s2) (Z.pos (m1 * m2)) (e1 + e2) loc_Exact T
              ltac:(lia) ltac:(subst T; nra) ltac:(reflexivity))
    as [[Hf HE]|[Hf (V & HV & HV0 & Herr & Hex)]].
  - left. rewrite Hf. split; [reflexivity|].
    rewrite Rabs_sign, (Rabs_pos_eq T) by lra.
    set (d := Zdigits2 (Z.pos (m1 * m2))) in *.
    unfold fexp, emax, prec, SpecFloat.emin in HE.
    destruct (Z.le_gt_cases 971 (e1 + e2)) as [He|He].
    + apply Rle_trans with (pow2 (e1 + e2)); [now apply pow2_le|].
      assert (1 <= IZR (Z.pos (m1 * m2))) by (apply IZR_le; lia). subst T. nra.
    + apply Rle_trans with (pow2 (d - 1 + (e1 + e2))); [apply pow2_le; lia|].
      rewrite pow2_add. subst T. nra.
  - right. split; [exact Hf|]. rewrite HV, Rabs_sign, (Rabs_pos_eq T) by lra.
    replace (sign (xorb s1 s2) * V - sign (xorb s1 s2) * T)
      with (sign (xorb s1 s2) * (V - T)) by ring.
    rewrite Rabs_sign.
    set (E := Z.max (e1 + e2) (fexp prec emax (Zdigits2 (Z.pos (m1 * m2)) + (e1 + e2)))) in *.
    destruct (Z.eq_dec E (e1 + e2)%Z) as [HEe|HEe].
    + rewrite (Hex eq_refl HEe). rewrite Rminus_diag, Rabs_R0. nra.
    + apply Rle_trans with (pow2 E); [exact Herr|]. apply unit_bound; [|lra].
      set (d := Zdigits2 (Z.pos (m1 * m2))) in *.
      unfold fexp, emax, prec, SpecFloat.emin in E.
      destruct (Z.eq_dec E (-1074)%Z) as [|HEm]; [now left|right].
      assert (E = d + (e1 + e2) - 53)%Z by (subst E; lia).
      replace (E + 52)%Z with (d - 1 + (e1 + e2))%Z by lia.
      rewrite pow2_add. subst T. nra.
Qed.

Lemma new_location_exact n k : new_location n k = loc_Exact -> k = 0%Z.
Proof.
  unfold new_location, new_location_even, new_location_odd.
  destruct (Z.even n); destruct (Z.eqb_spec k 0); trivial; discriminate.
Qed.

(** The quotient of two floats is the quotient of the numbers, within one
    unit in the last place. *)
Lemma div_R x y :
  is_finite x = true -> is_finite y = true -> to_R y <> 0 ->
  (is_finite (x / y) = false /\ pow2 971 <= Rabs (to_R x / to_R y)) \/
  (is_finite (x / y) = true /\
   Rabs (to_R (x / y) - to_R x / to_R y)
   <= pow2 (-52) * Rabs (to_R x / to_R y) + pow2 (-1074)).
Proof.
  rewrite !is_finite_spec. unfold to_R. rewrite div_spec. unfold SF64div.
  pose proof (pow2_pos (-52)) as H52. pose proof (pow2_pos (-1074)) as H1074.
  destruct (Prim2SF x) as [s1|s1| |s1 m1 e1]; try discriminate;
    destruct (Prim2SF y) as [s2|s2| |s2 m2 e2]; try discriminate; intros _ _ Hy;
    try (now destruct Hy).
  { right. split; [reflexivity|]. simpl SF2R. unfold Rdiv.
    rewrite ?Rmult_0_l, Rminus_0_r, Rabs_R0. lra. }
  cbn [SFdiv SF2R]. cbn [SF2R] in Hy.
  unfold SFdiv_core_binary.
  set (d1 := Zdigits2 (Z.pos m1)). set (d2 := Zdigits2 (Z.pos m2)).
  set (e' := Z.min (fexp prec emax (d1 + e1 - (d2 + e2))) (e1 - e2)).
  set (sh := (e1 - e2 - e')%Z).
  assert (Hsh : (0 <= sh)%Z) by (subst sh e'; lia).
  set (m' := match sh with
             | 0%Z => Z.pos m1
             | Z.pos _ => Z.shiftl (Z.pos m1) sh
             | Z.neg _ => 0%Z
             end).
  assert (Hm' : m' = (Z.pos m1 * 2 ^ sh)%Z).
  { subst m'. destruct sh as [|p|p] eqn:E; [lia| |lia].
    apply Z.shiftl_mul_pow2. lia. }
  assert (H2sh : (0 < 2 ^ sh)%Z) by (apply Z.pow_pos_nonneg; lia).
  destruct (Z.div_eucl m' (Z.pos m2)) as [q r] eqn:Hqr.
  assert (Hq : q = (m' / Z.pos m2)%Z) by (unfold Z.div; now rewrite Hqr).
  assert (Hr : r = (m' mod Z.pos m2)%Z) by (unfold Z.modulo; now rewrite Hqr).
  pose proof (Z.div_mod m' (Z.pos m2) ltac:(lia)) as Hdm.
  pose proof (Z.mod_pos_bound m' (Z.pos m2) ltac:(lia)) as Hrb.
  rewrite <- Hq, <- Hr in Hdm. rewrite <- Hr in Hrb.
  assert (Hq0 : (0 <= q)%Z) by (rewrite Hq; apply Z.div_pos; lia).
  (* the quotient as a real number *)
  set (a := IZR (Z.pos m1) * pow2 e1). set (b := IZR (Z.pos m2) * pow2 e2).
  assert (Ha : 0 < a) by (apply Rmult_lt_0_compat; [now apply IZR_lt|apply pow2_pos]).
  assert (Hb : 0 < b) by (apply Rmult_lt_0_compat; [now apply IZR_lt|apply pow2_pos]).
  set (T := a / b).
  assert (HT : sign s1 * a / (sign s2 * b) = sign (xorb s1 s2) * T).
  { subst T. destruct s1, s2; unfold sign; simpl; field; lra. }
  rewrite HT.
  assert (HT0 : 0 < T) by (subst T; now apply Rdiv_lt_0_compat).
  pose proof (pow2_pos e') as Hpe'. pose proof (pow2_pos e2) as Hpe2.
  assert (HM2 : 0 < IZR (Z.pos m2)) by now apply IZR_lt.
  assert (HTm : T * IZR (Z.pos m2) = IZR m' * pow2 e').
  { subst T a b. rewrite Hm', mult_IZR, pow2_IZR by lia.
    replace e1 with (sh + e' + e2)%Z at 1 by (subst sh; lia).
    rewrite !pow2_add. field. lra. }
  assert (Hmq : IZR m' = IZR (Z.pos m2) * IZR q + IZR r).
  { rewrite <- mult_IZR, <- plus_IZR. now f_equal. }
  assert (Hr0 : 0 <= IZR r < IZR (Z.pos m2)).
  { split; [apply IZR_le|apply IZR_lt]; lia. }
  assert (Hbetween : IZR q * pow2 e' <= T < (IZR q + 1) * pow2 e').
  { assert (Hd : (T - IZR q * pow2 e') * IZR (Z.pos m2) = IZR r * pow2 e').
    { rewrite Rmult_minus_distr_r, HTm, Hmq. ring. }
    split; nra. }
  assert (Hexact : new_location (Z.pos m2) r = loc_Exact -> T = IZR q * pow2 e').
  { intros Hl. apply new_location_exact in Hl. subst r.
    assert (Hd : (T - IZR q * pow2 e') * IZR (Z.pos m2) = 0).
    { rewrite Rmult_minus_distr_r, HTm, Hmq, Hl. ring. }
    nra. }
  pose proof (mantissa_R (Z.pos m1) ltac:(lia)) as [Hlo1 _].
  pose proof (mantissa_R (Z.pos m2) ltac:(lia)) as [_ Hhi2].
  fold d1 in Hlo1. fold d2 in Hhi2.
  set (E := Z.max e' (fexp prec emax (Zdigits2 q + e'))).
  assert (HA : E = (-1074)%Z \/ pow2 (E + 52) <= T).
  { destruct (Z.eq_dec E (-1074)%Z) as [|HEm]; [now left|right].
    unfold fexp, emax, prec, SpecFloat.emin in E, e'.
    destruct (Z.eq_dec E e') as [HEe|HEe].
    - (* the exponent is the one that the division chose *)
      assert (He' : (e' + 52 <= d1 - 1 + e1 - (d2 + e2))%Z) by (subst E e'; lia).
      rewrite HEe. apply Rle_trans with (pow2 (d1 - 1 + e1 - (d2 + e2))); [now apply pow2_le|].
      assert (Hlow : pow2 (d1 - 1 + e1 - (d2 + e2)) * b <= a).
      { subst a b.
        replace (d1 - 1 + e1 - (d2 + e2))%Z with ((d1 - 1) + e1 + - (d2 + e2))%Z by lia.
        rewrite !pow2_add.
        assert (pow2 (- (d2 + e2)) * (pow2 d2 * pow2 e2) = 1).
        { rewrite <- !pow2_add. replace (- (d2 + e2) + (d2 + e2))%Z with 0%Z by lia.
          reflexivity. }
        pose proof (pow2_pos (d1 - 1)). pose proof (pow2_pos e1).
        pose proof (pow2_pos (- (d2 + e2))). pose proof (pow2_pos d2).
        set (K := pow2 (- (d2 + e2)) * (IZR (Z.pos m2) * pow2 e2)) in *.
        assert (HK : 0 <= K <= 1).
        { subst K. split; [|nra].
          apply Rmult_le_pos; [lra|]. apply Rmult_le_pos; lra. }
        set (P := pow2 (d1 - 1) * pow2 e1).
        assert (HP : 0 <= P <= IZR (Z.pos m1) * pow2 e1) by (subst P; split; nra).
        apply Rle_trans with (P * 1); [|lra]. rewrite Rmult_assoc.
        apply Rmult_le_compat_l; [lra|]. fold K. lra. }
      subst T. apply (Rmult_le_reg_r b); [exact Hb|].
      unfold Rdiv. rewrite Rmult_assoc, Rinv_l by lra. lra.
    - (* the exponent is the one that the digits of the quotient give *)
      assert (Hqpos : (0 < q)%Z).
      { destruct (Z.eq_dec q 0%Z) as [Hq00|]; [|lia]. exfalso.
        subst E. rewrite Hq00 in *. simpl Zdigits2 in *. lia. }
      pose proof (mantissa_R q Hqpos) as [Hloq _].
      assert (E = Zdigits2 q + e' - 53)%Z by (subst E; lia).
      replace (E + 52)%Z with (Zdigits2 q - 1 + e')%Z by lia.
      rewrite pow2_add. nra. }
  destruct (binary_round_aux_R (xorb s1 s2) q e' (new_location (Z.pos m2) r) T
              Hq0 Hbetween Hexact)
    as [[Hf HE]|[Hf (V & HV & HV0 & Herr & _)]]; fold E in HE || fold E in Herr.
  - left. rewrite Hf. split; [reflexivity|].
    rewrite Rabs_sign, (Rabs_pos_eq T) by lra.
    unfold emax, prec in HE. destruct HA as [HA|HA]; [lia|].
    apply Rle_trans with (pow2 (E + 52)); [apply pow2_le; lia|exact HA].
  - right. split; [exact Hf|]. rewrite HV, Rabs_sign, (Rabs_pos_eq T) by lra.
    replace (sign (xorb s1 s2) * V - sign (xorb s1 s2) * T)
      with (sign (xorb s1 s2) * (V - T)) by ring.
    rewrite Rabs_sign.
    apply Rle_trans with (pow2 E); [exact Herr|]. apply unit_bound; [exact HA|lra].
Qed.

Lemma pow2_square k : pow2 (2 * k) = pow2 k * pow2 k.
Proof. replace (2 * k)%Z with (k + k)%Z by lia. apply pow2_add. Qed.

(** Two numbers that are not negative compare as their squares do. *)
Lemma square_le a b : 0 <= a -> 0 <= b -> a * a <= b * b -> a <= b.
Proof. intros. nra. Qed.

Lemma square_lt a b : 0 <= a -> 0 <= b -> a * a < b * b -> a < b.
Proof. intros. nra. Qed.

(** The square root of a positive float is the square root of the number,
    within one unit in the last place; it is always finite. *)
Lemma sqrt_R x :
  is_finite x = true -> 0 < to_R x ->
  is_finite (PrimFloat.sqrt x) = true /\
  Rabs (to_R (PrimFloat.sqrt x) - R_sqrt.sqrt (to_R x))
  <= pow2 (-52) * R_sqrt.sqrt (to_R x).
Proof.
  rewrite !is_finite_spec. unfold to_R. rewrite sqrt_spec. unfold SF64sqrt.
  pose proof (Prim2SF_valid x) as Vx.
  destruct (Prim2SF x) as [s|s| |s m e]; try discriminate; intros _ Hx;
    simpl SF2R in Hx; try lra.
  pose proof (pow2_pos e) as Hpe.
  assert (Hm1 : 1 <= IZR (Z.pos m)) by (apply IZR_le; lia).
  destruct s.
  { exfalso. unfold sign in Hx. nra. }
  simpl in Vx. apply bounded_inv in Vx. destruct Vx as (He & Hm & _).
  cbn [SFsqrt SF2R]. unfold sign. rewrite Rmult_1_l.
  unfold SFsqrt_core_binary.
  set (d := Zdigits2 (Z.pos m)).
  set (e' := Z.min (fexp prec emax (Z.div2 (d + e + 1))) (Z.div2 e)).
  set (sh := (e - 2 * e')%Z).
  assert (Hdiv2 : forall a, (2 * Z.div2 a <= a < 2 * Z.div2 a + 2)%Z).
  { intros a. rewrite Z.div2_div.
    pose proof (Z.div_mod a 2 ltac:(lia)). pose proof (Z.mod_pos_bound a 2 ltac:(lia)). lia. }
  assert (Hsh : (0 <= sh)%Z) by (subst sh e'; pose proof (Hdiv2 e); lia).
  set (m' := match sh with
             | 0%Z => Z.pos m
             | Z.pos _ => Z.shiftl (Z.pos m) sh
             | Z.neg _ => 0%Z
             end).
  assert (Hm' : m' = (Z.pos m * 2 ^ sh)%Z).
  { subst m'. destruct sh as [|p|p] eqn:E; [lia| |lia].
    apply Z.shiftl_mul_pow2. lia. }
  assert (H2sh : (0 < 2 ^ sh)%Z) by (apply Z.pow_pos_nonneg; lia).
  pose proof (Z.sqrtrem_spec m' ltac:(lia)) as Hsq.
  destruct (Z.sqrtrem m') as [q r]. destruct Hsq as [Hsq Hr].
  assert (Hq0 : (0 <= q)%Z) by lia.
  set (l := if (r =? 0)%Z then loc_Exact
            else loc_Inexact (if (r <=? q)%Z then Lt else Gt)).
  (* the square root as a real number *)
  set (X := IZR (Z.pos m) * pow2 e) in *.
  assert (HX0 : 0 < X) by (subst X; nra).
  set (T := R_sqrt.sqrt X).
  assert (HT0 : 0 <= T) by apply sqrt_pos.
  assert (HTT : T * T = X) by (apply sqrt_sqrt; lra).
  pose proof (pow2_pos e') as Hpe'.
  assert (HX : X = IZR m' * (pow2 e' * pow2 e')).
  { subst X. rewrite Hm', mult_IZR, pow2_IZR by lia.
    rewrite <- pow2_square, Rmult_assoc, <- pow2_add. do 2 f_equal. subst sh. lia. }
  assert (Hbetween : IZR q * pow2 e' <= T < (IZR q + 1) * pow2 e').
  { assert (Hq0' : 0 <= IZR q) by (apply IZR_le; lia).
    assert (Hlo : IZR q * IZR q <= IZR m').
    { rewrite <- mult_IZR. apply IZR_le. lia. }
    assert (Hhi : IZR m' < (IZR q + 1) * (IZR q + 1)).
    { rewrite <- (plus_IZR q 1), <- mult_IZR. apply IZR_lt. lia. }
    split.
    - apply square_le; trivial; [nra|]. rewrite HTT, HX. nra.
    - apply square_lt; trivial; [nra|]. rewrite HTT, HX.
      assert (0 < pow2 e' * pow2 e') by nra. nra. }
  assert (Hexact : l = loc_Exact -> T = IZR q * pow2 e').
  { subst l. destruct (Z.eqb_spec r 0) as [Hr0|]; [intros _|discriminate].
    assert (Hq0' : 0 <= IZR q) by (apply IZR_le; lia).
    assert (IZR m' = IZR q * IZR q) by (rewrite <- mult_IZR; f_equal; lia).
    assert (T * T = (IZR q * pow2 e') * (IZR q * pow2 e')) by (rewrite HTT, HX, H; ring).
    apply Rle_antisym; apply square_le; trivial; nra. }
  pose proof (mantissa_R (Z.pos m) ltac:(lia)) as [Hlom Hhim]. fold d in Hlom, Hhim.
  assert (Hd : (1 <= d <= 53)%Z).
  { subst d. simpl. pose proof (digits2_pos_bounds m) as [Hl _].
    split; [lia|].
    destruct (Z.le_gt_cases (Z.pos (digits2_pos m)) 53) as [|Hgt]; trivial.
    assert (2 ^ 53 <= 2 ^ (Z.pos (digits2_pos m) - 1))%Z by (apply Z.pow_le_mono_r; lia).
    lia. }
  assert (HXlo : pow2 (d - 1 + e) <= X) by (subst X; rewrite pow2_add; nra).
  assert (HXhi : X < pow2 (d + e)) by (subst X; rewrite pow2_add; nra).
  set (E := Z.max e' (fexp prec emax (Zdigits2 q + e'))).
  assert (HA : pow2 (E + 52) <= T).
  { unfold fexp, emax, prec, SpecFloat.emin in E, e'.
    pose proof (Hdiv2 (d + e + 1)%Z) as Hd2. pose proof (Hdiv2 e) as Hd2e.
    assert (Hsquare : forall k, (2 * k <= d - 1 + e)%Z -> pow2 k <= T).
    { intros k Hk. apply square_le; trivial; [pose proof (pow2_pos k); lra|].
      rewrite HTT, <- pow2_square.
      apply Rle_trans with (pow2 (d - 1 + e)); [now apply pow2_le|exact HXlo]. }
    destruct (Z.eq_dec E (-1074)%Z) as [->|HEm]; [apply Hsquare; lia|].
    destruct (Z.eq_dec E e') as [HEe|HEe].
    - rewrite HEe. apply Hsquare. subst E e'. lia.
    - assert (Hqpos : (0 < q)%Z).
      { destruct (Z.eq_dec q 0%Z) as [Hq00|]; [|lia]. exfalso.
        subst E. rewrite Hq00 in *. simpl Zdigits2 in *. lia. }
      pose proof (mantissa_R q Hqpos) as [Hloq _].
      assert (E = Zdigits2 q + e' - 53)%Z by (subst E; lia).
      replace (E + 52)%Z with (Zdigits2 q - 1 + e')%Z by lia.
      rewrite pow2_add. nra. }
  destruct (binary_round_aux_R false q e' l T Hq0 Hbetween Hexact)
    as [[Hf HE]|[Hf (V & HV & HV0 & Herr & _)]]; fold E in HE || fold E in Herr.
  - exfalso. unfold emax, prec in HE.
    assert (pow2 512 <= T).
    { apply Rle_trans with (pow2 (E + 52)); [apply pow2_le; lia|exact HA]. }
    assert (T * T < pow2 512 * pow2 512).
    { rewrite HTT, <- pow2_square.
      apply Rlt_le_trans with (pow2 (d + e)); [exact HXhi|]. apply pow2_le. lia. }
    pose proof (pow2_pos 512). nra.
  - split; [exact Hf|]. rewrite HV. unfold sign. rewrite Rmult_1_l.
    apply Rle_trans with (pow2 E); [exact Herr|].
    replace E with (-52 + (E + 52))%Z at 1 by lia. rewrite pow2_add.
    pose proof (pow2_pos (-52)). nra.
Qed.

(** ** Errors through the logarithm and the exponential *)

Lemma Rabs_le_inv a b : Rabs a <= b -> - b <= a <= b.
Proof. unfold Rabs. destruct (Rcase_abs a); lra. Qed.

Lemma ln_le_minus_1 y : 0 < y -> ln y <= y - 1.
Proof.
  intros H. pose proof (exp_ineq1_le (ln y)) as E. rewrite exp_ln in E by trivial. lra.
Qed.

Lemma ln_ge_minus_inv y : 0 < y -> 1 - / y <= ln y.
Proof.
  intros H. assert (Hi : 0 < / y) by now apply Rinv_0_lt_compat.
  pose proof (ln_le_minus_1 (/ y) Hi) as E. rewrite ln_Rinv in E by trivial. lra.
Qed.

Lemma ln_le_mono x y : 0 < x -> x <= y -> ln x <= ln y.
Proof.
  intros Hx [H| ->]; [|lra]. left. now apply ln_increasing.
Qed.

Lemma ln_2_bounds : 0 < ln 2 <= 1.
Proof.
  split.
  - rewrite <- ln_1. apply ln_increasing; lra.
  - pose proof (ln_le_minus_1 2). lra.
Qed.

Lemma ln_10_bounds : 1 <= ln 10 <= 9.
Proof.
  split.
  - rewrite <- (ln_exp 1). apply ln_le_mono; [apply exp_pos|].
    pose proof exp_le_3. lra.
  - pose proof (ln_le_minus_1 10). lra.
Qed.

Lemma ln_pow2 k : ln (pow2 k) = IZR k * ln 2.
Proof.
  unfold pow2. rewrite powerRZ_Rpower by lra. unfold Rpower. apply ln_exp.
Qed.

Lemma ln_1_plus d : Rabs d <= / 2 -> Rabs (ln (1 + d)) <= 2 * Rabs d.
Proof.
  intros H. apply Rabs_le_inv in H. 
  assert (H1 : 0 < 1 + d) by lra.
  pose proof (ln_le_minus_1 (1 + d) H1) as Hup.
  pose proof (ln_ge_minus_inv (1 + d) H1) as Hlo.
  assert (Hinv : 1 - / (1 + d) = d * / (1 + d)) by (field; lra).
  rewrite Hinv in Hlo.
  assert (Hi : 0 < / (1 + d) <= 2).
  { split; [now apply Rinv_0_lt_compat|].
    rewrite <- (Rinv_inv 2). apply Rinv_le_contravar; lra. }
  apply Rabs_le. unfold Rabs at 1 2. destruct (Rcase_abs d); split; nra.
Qed.

Lemma exp_minus_1 t : Rabs t <= / 2 -> Rabs (exp t - 1) <= 2 * Rabs t.
Proof.
  intros H. apply Rabs_le_inv in H.
  pose proof (exp_ineq1_le t) as Hlo.
  pose proof (exp_ineq1_le (- t)) as Hneg. rewrite exp_Ropp in Hneg.
  pose proof (exp_pos t) as Hp.
  assert (Hup : exp t * (1 - t) <= 1).
  { assert (/ exp t * exp t = 1) by (apply Rinv_l; lra). nra. }
  apply Rabs_le. unfold Rabs at 1 2. destruct (Rcase_abs t); split; nra.
Qed.

(** From a relative error to an error of the logarithm, and back. *)
Lemma rel_to_log x t e :
  0 < t -> 0 <= e <= / 2 -> Rabs (x - t) <= e * t ->
  0 < x /\ Rabs (ln x - ln t) <= 2 * e.
Proof.
  intros Ht He H. apply Rabs_le_inv in H.
  assert (Hx : 0 < x) by nra. split; [exact Hx|].
  set (d := (x - t) / t).
  assert (Hd : Rabs d <= e).
  { apply Rabs_le. subst d. split.
    - apply (Rmult_le_reg_r t); [exact Ht|]. unfold Rdiv.
      rewrite Rmult_assoc, Rinv_l by lra. lra.
    - apply (Rmult_le_reg_r t); [exact Ht|]. unfold Rdiv.
      rewrite Rmult_assoc, Rinv_l by lra. lra. }
  assert (Hxd : x = t * (1 + d)) by (subst d; field; lra).
  assert (H1d : 0 < 1 + d) by (apply Rabs_le_inv in Hd; lra).
  rewrite Hxd, ln_mult by trivial.
  replace (ln t + ln (1 + d) - ln t) with (ln (1 + d)) by ring.
  apply Rle_trans with (2 * Rabs d); [apply ln_1_plus; lra|lra].
Qed.

Lemma log_to_rel x t tau :
  0 < x -> 0 < t -> Rabs (ln x - ln t) <= tau -> tau <= / 2 ->
  Rabs (x - t) <= 2 * tau * t.
Proof.
  intros Hx Ht H Htau.
  assert (Hxt : x = t * exp (ln x - ln t)).
  { unfold Rminus. rewrite exp_plus, exp_Ropp, !exp_ln by trivial. field. lra. }
  pose proof (exp_minus_1 (ln x - ln t) ltac:(lra)) as He.
  assert (Hd : x - t = t * (exp (ln x - ln t) - 1)).
  { rewrite Rmult_minus_distr_l, Rmult_1_r, <- Hxt. reflexivity. }
  rewrite Hd.
  rewrite Rabs_mult, (Rabs_pos_eq t) by lra.
  apply Rle_trans with (t * (2 * Rabs (ln x - ln t))); [|nra].
  apply Rmult_le_compat_l; lra.
Qed.

Lemma ln_sqrt_half p : 0 < p -> ln (R_sqrt.sqrt p) = ln p / 2.
Proof.
  intros H. assert (Hs : 0 < R_sqrt.sqrt p) by now apply sqrt_lt_R0.
  pose proof (sqrt_sqrt p ltac:(lra)) as E.
  apply (f_equal ln) in E. rewrite ln_mult in E by trivial. lra.
Qed.

(** Powers of two as decimals. *)
Lemma pow2_20 : pow2 20 = 1048576 /\ pow2 (-20) * 1048576 = 1.
Proof.
  assert (H : pow2 20 = 1048576) by (rewrite <- pow2_IZR by lia; reflexivity).
  split; [exact H|]. rewrite <- H, <- pow2_add. reflexivity.
Qed.

(** ** The error of the round trip, from the errors of its six steps *)

Lemma Rabs_scale x c : 0 < c -> Rabs (x * c) = Rabs x * c.
Proof. intros H. now rewrite Rabs_mult, (Rabs_pos_eq c) by lra. Qed.

Lemma small_numbers eps :
  pow2 (-52) <= eps <= pow2 (-20) ->
  0 < pow2 (-52) /\ 0 < pow2 (-1074) /\ eps <= / 1048576 /\
  pow2 (-1074) <= eps * / 1048576.
Proof.
  intros [H1 H2]. destruct pow2_20 as [_ H20].
  pose proof (pow2_pos (-52)) as Hu. pose proof (pow2_pos (-1074)) as Heta.
  assert (H20' : pow2 (-20) = / 1048576).
  { apply (Rmult_eq_reg_r 1048576); [|lra]. rewrite H20. field. }
  repeat split; trivial; [lra|].
  replace (-1074)%Z with (-52 + -1022)%Z by lia. rewrite pow2_add.
  assert (pow2 (-1022) <= pow2 (-20)) by (apply pow2_le; lia).
  pose proof (pow2_pos (-1022)). rewrite H20' in *. nra.
Qed.

(** The logarithm of the square that [math.Pow] returns, and the decibels
    that [math.Log10] makes of it, are of moderate size. *)
Lemma square_log_bounds eps r X1 L :
  pow2 (-52) <= eps <= pow2 (-20) ->
  0 < r <= 1 ->
  pow2 (-1074) <= X1 ->
  Rabs (X1 - r * r) <= eps * Rabs (r * r) ->
  Rabs (L - log10 X1) <= eps * Rabs (log10 X1) ->
  0 < X1 /\ -1074 <= ln X1 <= 1 /\ Rabs (ln X1 - 2 * ln r) <= 2 * eps /\
  Rabs (L * ln 10 - ln X1) <= 1074 * eps /\ Rabs L <= 1075.
Proof.
  intros Heps Hr HXlo HX1 HL.
  destruct (small_numbers eps Heps) as (Hu & Heta & He6 & _).
  pose proof ln_10_bounds as Hc. pose proof ln_2_bounds as H2.
  assert (Hrr : 0 < r * r) by nra.
  rewrite (Rabs_pos_eq (r * r)) in HX1 by lra.
  destruct (rel_to_log X1 (r * r) eps Hrr ltac:(lra) HX1) as [HX1pos Ha1].
  rewrite ln_mult in Ha1 by lra.
  assert (Hlnr : ln r <= 0) by (pose proof (ln_le_minus_1 r); lra).
  assert (Halo : -1074 <= ln X1).
  { apply Rle_trans with (ln (pow2 (-1074))); [|apply ln_le_mono; [apply pow2_pos|exact HXlo]].
    rewrite ln_pow2. nra. }
  assert (Hahi : ln X1 <= 1) by (apply Rabs_le_inv in Ha1; lra).
  split; [exact HX1pos|]. split; [lra|].
  split; [replace (2 * ln r) with (ln r + ln r) by ring; exact Ha1|].
  unfold log10 in HL. set (a := ln X1) in *. set (c := ln 10) in *.
  assert (Haa : Rabs a <= 1074) by (apply Rabs_le; lra).
  assert (Hac : Rabs (a / c) * c = Rabs a).
  { rewrite <- Rabs_scale by lra. f_equal. field. lra. }
  assert (Hl : Rabs (L * c - a) <= 1074 * eps).
  { replace (L * c - a) with ((L - a / c) * c) by (field; lra).
    rewrite Rabs_scale by lra.
    apply Rle_trans with (eps * Rabs (a / c) * c); [apply Rmult_le_compat_r; lra|].
    rewrite Rmult_assoc, Hac. nra. }
  split; [exact Hl|].
  apply Rabs_le_inv in Hl.
  assert (HLc : Rabs (L * c) <= 1075) by (apply Rabs_le; lra).
  rewrite Rabs_scale in HLc by lra.
  pose proof (Rabs_pos L). nra.
Qed.

Lemma round_trip_error eps r X1 L dB y p out :
  pow2 (-52) <= eps <= pow2 (-20) ->
  0 < r <= 1 ->
  pow2 (-1074) <= X1 ->
  Rabs (X1 - r * r) <= eps * Rabs (r * r) ->
  Rabs (L - log10 X1) <= eps * Rabs (log10 X1) ->
  Rabs (dB - 10 * L) <= pow2 (-52) * Rabs (10 * L) + pow2 (-1074) ->
  Rabs (y - dB / 10) <= pow2 (-52) * Rabs (dB / 10) + pow2 (-1074) ->
  Rabs (p - Rpower 10 y) <= eps * Rabs (Rpower 10 y) ->
  Rabs (out - R_sqrt.sqrt p) <= pow2 (-52) * R_sqrt.sqrt p ->
  Rabs (out - r) <= 4000 * eps * Rabs r.
Proof.
  intros Heps Hr HXlo HX1 HL HdB Hy Hp Hout.
  destruct (square_log_bounds eps r X1 L Heps Hr HXlo HX1 HL)
    as (HX1pos & Ha & Ha1 & Hl & HLb).
  destruct (small_numbers eps Heps) as (Hu & Heta & He6 & Heta').
  pose proof ln_10_bounds as Hc.
  set (u := pow2 (-52)) in *. set (eta := pow2 (-1074)) in *.
  set (a := ln X1) in *. set (c := ln 10) in *.
  destruct Heps as [Hue _].
  (* the decibels, and their tenth, in units of the natural logarithm *)
  assert (HLc : Rabs (L * c) <= 1075).
  { apply Rabs_le_inv in Hl. apply Rabs_le. lra. }
  assert (Hb : Rabs (dB / 10 * c - L * c) <= 1075 * u + eta).
  { replace (dB / 10 * c - L * c) with ((dB - 10 * L) * (c / 10)) by field.
    rewrite Rabs_scale by lra.
    apply Rle_trans with ((u * Rabs (10 * L) + eta) * (c / 10));
      [apply Rmult_le_compat_r; lra|].
    replace (10 * L) with (L * 10) by ring. rewrite Rabs_scale by lra.
    rewrite Rabs_scale in HLc by lra. pose proof (Rabs_pos L). nra. }
  assert (Hbc : Rabs (dB / 10 * c) <= 1076).
  { apply Rabs_le_inv in Hb. apply Rabs_le_inv in HLc. apply Rabs_le. nra. }
  assert (Hz : Rabs (y * c - dB / 10 * c) <= 1076 * u + 9 * eta).
  { replace (y * c - dB / 10 * c) with ((y - dB / 10) * c) by ring.
    rewrite Rabs_scale by lra.
    apply Rle_trans with ((u * Rabs (dB / 10) + eta) * c);
      [apply Rmult_le_compat_r; lra|].
    rewrite Rabs_scale in Hbc by lra. pose proof (Rabs_pos (dB / 10)). nra. }
  (* the power of ten and the square root *)
  assert (Hexp : Rpower 10 y = exp (y * c)) by reflexivity.
  rewrite Hexp in Hp. rewrite (Rabs_pos_eq (exp (y * c))) in Hp by (left; apply exp_pos).
  destruct (rel_to_log p (exp (y * c)) eps (exp_pos _) ltac:(lra) Hp) as [Hppos Hlp].
  rewrite ln_exp in Hlp.
  assert (Hsp : 0 < R_sqrt.sqrt p) by now apply sqrt_lt_R0.
  destruct (rel_to_log out (R_sqrt.sqrt p) u Hsp ltac:(lra) Hout) as [Houtpos Hlo].
  rewrite ln_sqrt_half in Hlo by trivial.
  (* the sum of the errors *)
  apply Rabs_le_inv in Ha1, Hl, Hb, Hz, Hlp, Hlo.
  assert (Htau : Rabs (ln out - ln r) <= 2000 * eps).
  { apply Rabs_le. lra. }
  rewrite (Rabs_pos_eq r) by lra.
  replace (4000 * eps * r) with (2 * (2000 * eps) * r) by ring.
  apply log_to_rel; try lra.
Qed.

(** ** Floats of the program as real numbers *)

Lemma to_R_Ford x : is_finite x = true -> to_R x = IZR (Ford x) * pow2 (-1074).
Proof.
  rewrite is_finite_spec. unfold to_R, Ford. pose proof (Prim2SF_valid x) as V.
  destruct (Prim2SF x) as [s|s| |s m e]; try discriminate; intros _; cbn [SF2R ord].
  - lra.
  - apply bounded_inv in V. destruct V as (He & _).
    assert (Hp : IZR (Z.pos m * 2 ^ (e + 1074)) * pow2 (-1074) = IZR (Z.pos m) * pow2 e).
    { rewrite mult_IZR, pow2_IZR by lia. rewrite Rmult_assoc, <- pow2_add.
      do 2 f_equal. lia. }
    destruct s; unfold sign; [rewrite opp_IZR|]; rewrite <- Hp; ring.
Qed.

Lemma positive_float x : is_finite x = true -> 0 < to_R x -> pow2 (-1074) <= to_R x.
Proof.
  intros F H. rewrite (to_R_Ford x F) in *. pose proof (pow2_pos (-1074)) as Hp.
  assert (0 < IZR (Ford x)) by nra.
  assert (1 <= IZR (Ford x)) by (apply IZR_le; apply lt_IZR in H0; lia).
  nra.
Qed.

Lemma to_R_constants :
  is_finite 10 = true /\ to_R 10 = 10 /\ to_R 1 = 1 /\ to_R 0 = 0.
Proof.
  assert (H : pow2 1074 * pow2 (-1074) = 1) by (rewrite <- pow2_add; reflexivity).
  split; [reflexivity|]. rewrite !to_R_Ford by reflexivity.
  replace (Ford 10) with (10 * 2 ^ 1074)%Z by (now vm_compute).
  replace (Ford 1) with (2 ^ 1074)%Z by (now vm_compute).
  replace (Ford 0) with 0%Z by (now vm_compute).
  rewrite mult_IZR, !pow2_IZR by lia. repeat split; nra.
Qed.

Lemma unit_interval_R r :
  (0 <? r)%float = true -> (r <=? 1)%float = true ->
  is_finite r = true /\ 0 < to_R r <= 1.
Proof.
  intros H0 H1. apply ltb_iff in H0. destruct H0 as (_ & N & H0).
  apply leb_iff in H1. destruct H1 as (_ & _ & H1).
  rewrite Ford_zero in H0.
  assert (H1' : Ford 1 = (2 ^ 1074)%Z) by (now vm_compute).
  assert (Hinf : (2 ^ 1074 < ord_inf)%Z) by (now vm_compute).
  assert (F : is_finite r = true).
  { apply finite_of_position; trivial. pose proof ord_inf_pos. lia. }
  split; [exact F|]. rewrite (to_R_Ford r F).
  pose proof (pow2_pos (-1074)) as Hp.
  assert (H : pow2 1074 * pow2 (-1074) = 1) by (rewrite <- pow2_add; reflexivity).
  assert (0 < IZR (Ford r)) by (now apply IZR_lt).
  assert (IZR (Ford r) <= pow2 1074).
  { rewrite <- pow2_IZR by lia. apply IZR_le. lia. }
  split; nra.
Qed.

Section RoundTrip.

Variable log10_core : float -> float.
Variable pow_core : float -> float -> float.

Local Abbreviation Log10_ := (GoMath.Log10 log10_core).
Local Abbreviation Pow_ := (GoMath.Pow pow_core).
Local Abbreviation currentDB_ := (currentDB log10_core pow_core).

(** C8, as the code has it.  For an amplitude ratio [r] of [(0, 1]] at which
    the three calls of the library are accurate, [math.Pow(r, 2)],
    [math.Log10] of that square and [math.Pow(10, dB/10)] each finite and
    within the relative error [eps] of the exact value, with [eps] between
    [2^-52] and [2^-20], the two conversions of [newVolumeLog] one after the
    other return a finite number within the relative error [4000 * eps] of
    [r].  The multiplication by 10, the division by 10 and the square root
    are those of binary64, with their rounding. *)
Theorem decibel_round_trip_binary64 r eps :
  (0 <? r)%float = true -> (r <=? 1)%float = true ->
  pow2 (-52) <= eps <= pow2 (-20) ->
  accurate eps (Pow_ r 2) (to_R r * to_R r) ->
  accurate eps (Log10_ (Pow_ r 2)) (log10 (to_R (Pow_ r 2))) ->
  accurate eps (Pow_ 10 (currentDB_ r / 10))
           (Rpower 10 (to_R (currentDB_ r / 10))) ->
  accurate (4000 * eps) (newAmpRatio pow_core (currentDB_ r)) (to_R r).
Proof.
  intros Hr0 Hr1 Heps [F1 A1] [F2 A2] [F3 A3].
  destruct (unit_interval_R r Hr0 Hr1) as (Fr & Hr).
  destruct to_R_constants as (F10 & H10 & _).
  destruct (small_numbers eps Heps) as (Hu & Heta & He6 & Heta').
  destruct pow2_20 as [H20 _].
  assert (Hbig : 1048576 <= pow2 971) by (rewrite <- H20; apply pow2_le; lia).
  assert (Hu1 : pow2 (-52) <= / 1048576) by lra.
  assert (Heta1 : pow2 (-1074) <= 1) by nra.
  unfold newAmpRatio. unfold currentDB in *.
  set (x1 := Pow_ r 2) in *. set (L := Log10_ x1) in *.
  (* the square is a positive float *)
  assert (Hrr : 0 < to_R r * to_R r) by nra.
  assert (HX1 : 0 < to_R x1).
  { rewrite (Rabs_pos_eq (to_R r * to_R r)) in A1 by lra.
    apply (rel_to_log _ _ eps Hrr ltac:(lra) A1). }
  pose proof (positive_float x1 F1 HX1) as HXlo.
  destruct (square_log_bounds eps (to_R r) (to_R x1) (to_R L) Heps Hr HXlo A1 A2)
    as (_ & _ & _ & _ & HLb).
  (* the multiplication by 10 *)
  destruct (mul_R 10 L F10 F2) as [[_ Hov]|[FdB HdB]].
  { exfalso. rewrite H10, Rabs_mult, (Rabs_pos_eq 10) in Hov by lra. lra. }
  rewrite H10 in HdB.
  assert (HdBb : Rabs (to_R (10 * L)%float) <= 21501).
  { apply Rabs_le_inv in HdB. rewrite Rabs_mult, (Rabs_pos_eq 10) in HdB by lra.
    pose proof (Rabs_le_inv _ _ HLb) as HLb'. pose proof (Rabs_pos (to_R L)) as HaL.
    set (aL := Rabs (to_R L)) in *.
    assert (pow2 (-52) * (10 * aL) <= 1) by nra.
    apply Rabs_le. lra. }
  (* the division by 10 *)
  destruct (div_R (10 * L)%float 10 FdB F10 ltac:(lra)) as [[_ Hov]|[Fy Hy]].
  { exfalso. rewrite H10 in Hov. apply Rabs_le_inv in HdBb.
    unfold Rabs in Hov. destruct (Rcase_abs (to_R (10 * L)%float / 10)); lra. }
  rewrite H10 in Hy.
  (* the power of ten is a positive float, and so is its square root *)
  set (y := (10 * L / 10)%float) in *. set (p := Pow_ 10 y) in *.
  assert (Hp : 0 < to_R p).
  { assert (Hexp : 0 < Rpower 10 (to_R y)) by apply exp_pos.
    rewrite (Rabs_pos_eq (Rpower 10 (to_R y))) in A3 by lra.
    apply (rel_to_log _ _ eps Hexp ltac:(lra) A3). }
  destruct (sqrt_R p F3 Hp) as [Fout Hout].
  split; [exact Fout|].
  exact (round_trip_error eps (to_R r) (to_R x1) (to_R L) (to_R (10 * L)%float)
           (to_R y) (to_R p) (to_R (PrimFloat.sqrt p))
           Heps Hr HXlo A1 A2 HdB Hy A3 Hout).
Qed.

End RoundTrip.

(** C8, as the claim states it, fails: the square of the amplitude ratio
    [2^-600], which lies in [(0, 1]], is below the least positive float64,
    so that [math.Pow] returns 0 for it, as every kernel does that returns
    the rounded square; the decibel value is minus infinity and the ratio
    that comes back is 0, which is within no relative error below 1 of the
    ratio. *)
Lemma round_trip_loses_small_ratio :
  (0 <? 0x1p-600)%float = true /\ (0x1p-600 <=? 1)%float = true /\
  forall log10_core pow_core,
    pow_core 0x1p-600%float 2%float = (0x1p-600 * 0x1p-600)%float ->
    currentDB log10_core pow_core 0x1p-600 = neg_infinity /\
    newAmpRatio pow_core (currentDB log10_core pow_core 0x1p-600) = 0%float /\
    forall eps, eps < 1 ->
      ~ accurate eps (newAmpRatio pow_core (currentDB log10_core pow_core 0x1p-600))
          (to_R 0x1p-600).
Proof.
  split; [reflexivity|]. split; [reflexivity|].
  intros log10_core pow_core H.
  assert (E : GoMath.Pow pow_core 0x1p-600 2 = pow_core 0x1p-600%float 2%float)
    by reflexivity.
  assert (D : currentDB log10_core pow_core 0x1p-600 = neg_infinity).
  { unfold currentDB. rewrite E, H. reflexivity. }
  assert (A : newAmpRatio pow_core (currentDB log10_core pow_core 0x1p-600) = 0%float).
  { rewrite D. reflexivity. }
  split; [exact D|]. split; [exact A|].
  intros eps Heps [_ Hacc]. rewrite A in Hacc.
  destruct to_R_constants as (_ & _ & _ & H0).
  destruct (unit_interval_R 0x1p-600 eq_refl eq_refl) as [_ [Hr _]].
  rewrite H0, Rminus_0_l, Rabs_Ropp, (Rabs_pos_eq (to_R 0x1p-600)) in Hacc by lra.
  nra.
Qed.

Lemma decibel_round_trip_binary64_witness :
  accurate (4000 * pow2 (-52))
           (newAmpRatio unit_pow (currentDB unit_log10 unit_pow 1)) (to_R 1).
Proof.
  destruct to_R_constants as (_ & _ & H1 & H0).
  apply (decibel_round_trip_binary64 unit_log10 unit_pow 1 (pow2 (-52))).
  - reflexivity.
  - reflexivity.
  - split; [lra|apply pow2_le; lia].
  - split; [reflexivity|].
    change (GoMath.Pow unit_pow 1 2) with 1%float. rewrite H1.
    replace (1 - 1 * 1) with 0 by ring. rewrite Rabs_R0.
    apply Rmult_le_pos; [left; apply pow2_pos|apply Rabs_pos].
  - split; [reflexivity|].
    change (GoMath.Log10 unit_log10 (GoMath.Pow unit_pow 1 2)) with 0%float.
    change (GoMath.Pow unit_pow 1 2) with 1%float.
    unfold log10. rewrite H0, H1, ln_1. unfold Rdiv. rewrite Rmult_0_l, Rminus_0_r, Rabs_R0.
    lra.
  - split; [reflexivity|].
    change (currentDB unit_log10 unit_pow 1 / 10)%float with 0%float.
    change (GoMath.Pow unit_pow 10 0) with 1%float.
    rewrite H0, H1, Rpower_O by lra.
    replace (1 - 1) with 0 by ring. rewrite Rabs_R0, Rabs_R1.
    pose proof (pow2_pos (-52)). lra.
Defined.
